(** * TypeBleed: session aggregation and character-set reconstruction

    A shallow embedding of the collector ([server/server.py]) and of the
    offline reconstruction tool ([analysis/reconstruct.py]), followed by the
    properties of the engine stated against that embedding.

    Python strings are sequences of Unicode code points; a "character" of a
    character set is itself a Python string (usually of length one, but the
    registry also hands out multi-character placeholders such as [U+FFFF]). *)

From Stdlib Require Import ZArith List Bool Lia String Ascii Sorting.Sorted.
From stdpp Require Import base option list gmap sets fin_maps.

Local Open Scope Z_scope.

(** ** Python strings *)

Module PyStr.

(** A string is the list of its code points. *)
Abbreviation pystr := (list Z).

(** Source literals: every literal of the repository except the four
    currency symbols is plain ASCII. *)
Definition lit (s : string) : pystr :=
  map (fun a => Z.of_nat (nat_of_ascii a)) (list_ascii_of_string s).

Definition EURO : Z := 0x20AC.
Definition POUND : Z := 0x00A3.
Definition YEN : Z := 0x00A5.
Definition BITCOIN : Z := 0x20BF.

(** *** The ASCII block, where the behaviour of [str] methods is fixed *)

Definition is_ascii (c : Z) : bool := (0 <=? c) && (c <? 128).
Definition ascii_isdigit (c : Z) : bool := (48 <=? c) && (c <=? 57).
Definition ascii_isupper (c : Z) : bool := (65 <=? c) && (c <=? 90).
Definition ascii_islower (c : Z) : bool := (97 <=? c) && (c <=? 122).
Definition ascii_isspace (c : Z) : bool :=
  ((9 <=? c) && (c <=? 13)) || ((28 <=? c) && (c <=? 32)).
Definition ascii_tolower (c : Z) : Z := if ascii_isupper c then c + 32 else c.
Definition ascii_toupper (c : Z) : Z := if ascii_islower c then c - 32 else c.

(** The characters the vocabularies are written with. *)
Definition plain (c : Z) : bool := ascii_islower c || ascii_isdigit c.

(** *** The rest of the Unicode character database

    The interpreter's tables for code points beyond ASCII are not part of
    the repository; they are a parameter of the development.  Case
    conversion of a string that is not pure ASCII is context sensitive
    (final sigma), so it is a function on whole strings. *)

Class UnicodeData := {
  uc_digit : Z -> bool;
  uc_decimal : Z -> bool;
  uc_numeric : Z -> bool;
  uc_alpha : Z -> bool;
  uc_upper : Z -> bool;
  uc_lower : Z -> bool;
  uc_title : Z -> bool;
  uc_space : Z -> bool;
  uc_str_lower : pystr -> pystr;
  uc_str_upper : pystr -> pystr
}.

(** A table without any cased, numeric or blank code point beyond ASCII;
    it only serves to evaluate the definitions on ASCII inputs. *)
Definition ascii_only_table : UnicodeData := {|
  uc_digit := fun _ => false;
  uc_decimal := fun _ => false;
  uc_numeric := fun _ => false;
  uc_alpha := fun _ => false;
  uc_upper := fun _ => false;
  uc_lower := fun _ => false;
  uc_title := fun _ => false;
  uc_space := fun _ => false;
  uc_str_lower := fun s => s;
  uc_str_upper := fun s => s
|}.

Section Methods.
Context {U : UnicodeData}.

Definition cp_isdigit (c : Z) : bool :=
  if is_ascii c then ascii_isdigit c else uc_digit c.
Definition cp_isdecimal (c : Z) : bool :=
  if is_ascii c then ascii_isdigit c else uc_decimal c.
Definition cp_isnumeric (c : Z) : bool :=
  if is_ascii c then ascii_isdigit c else uc_numeric c.
Definition cp_isupper (c : Z) : bool :=
  if is_ascii c then ascii_isupper c else uc_upper c.
Definition cp_islower (c : Z) : bool :=
  if is_ascii c then ascii_islower c else uc_lower c.
Definition cp_istitle (c : Z) : bool :=
  if is_ascii c then false else uc_title c.
Definition cp_isalpha (c : Z) : bool :=
  if is_ascii c then ascii_isupper c || ascii_islower c else uc_alpha c.
Definition cp_isspace (c : Z) : bool :=
  if is_ascii c then ascii_isspace c else uc_space c.
Definition cp_isalnum (c : Z) : bool :=
  cp_isalpha c || cp_isdecimal c || cp_isdigit c || cp_isnumeric c.

(** [s.isdigit()]: non-empty and every character is a digit. *)
Definition isdigit (s : pystr) : bool :=
  negb (Nat.eqb (length s) 0) && forallb cp_isdigit s.

(** [s.isalnum()]: non-empty and every character is alphanumeric. *)
Definition isalnum (s : pystr) : bool :=
  negb (Nat.eqb (length s) 0) && forallb cp_isalnum s.

(** [s.isupper()]: no lowercase or titlecase character and at least
    one uppercase character. *)
Definition isupper (s : pystr) : bool :=
  negb (existsb (fun c => cp_islower c || cp_istitle c) s)
  && existsb cp_isupper s.

(** [s.islower()]: no uppercase or titlecase character and at least
    one lowercase character. *)
Definition islower (s : pystr) : bool :=
  negb (existsb (fun c => cp_isupper c || cp_istitle c) s)
  && existsb cp_islower s.

(** [s.lower()] and [s.upper()]. *)
Definition lower (s : pystr) : pystr :=
  if forallb is_ascii s then map ascii_tolower s else uc_str_lower s.
Definition upper (s : pystr) : pystr :=
  if forallb is_ascii s then map ascii_toupper s else uc_str_upper s.

(** [s.strip()]: blanks removed at both ends. *)
Fixpoint lstrip (s : pystr) : pystr :=
  match s with
  | c :: s' => if cp_isspace c then lstrip s' else s
  | [] => []
  end.
Definition rstrip (s : pystr) : pystr := rev (lstrip (rev s)).
Definition strip (s : pystr) : pystr := rstrip (lstrip s).
End Methods.

(** *** Equality and order of strings (code point by code point) *)

Fixpoint str_eqb (a b : pystr) : bool :=
  match a, b with
  | [], [] => true
  | x :: a', y :: b' => (x =? y) && str_eqb a' b'
  | _, _ => false
  end.

(** [a < b]. *)
Fixpoint str_ltb (a b : pystr) : bool :=
  match a, b with
  | _, [] => false
  | [], _ :: _ => true
  | x :: a', y :: b' => (x <? y) || ((x =? y) && str_ltb a' b')
  end.

(** [a <= b]. *)
Definition str_le (a b : pystr) : Prop := str_ltb b a = false.

(** [sorted(xs)]: the stable sort, which only ever asks [y < x]. *)
Fixpoint sorted_insert (x : pystr) (l : list pystr) : list pystr :=
  match l with
  | [] => [x]
  | y :: l' => if str_ltb x y then x :: l else y :: sorted_insert x l'
  end.
Definition sorted (xs : list pystr) : list pystr :=
  fold_left (fun acc x => sorted_insert x acc) xs [].

(** [xs.sort(key=len, reverse=True)]: stable, longest first; among words
    of equal length the original order is kept. *)
Fixpoint insert_by_len (x : pystr) (l : list pystr) : list pystr :=
  match l with
  | [] => [x]
  | y :: l' =>
      if (length x <? length y)%nat then y :: insert_by_len x l'
      else x :: l
  end.
Definition sort_len_desc (xs : list pystr) : list pystr :=
  fold_right insert_by_len [] xs.

(** [f"{n:04X}"]: uppercase hexadecimal, zero padded to four digits. *)
Definition hex_digit (d : Z) : Z := if d <? 10 then 48 + d else 55 + d.
Fixpoint hex_digits (fuel : nat) (n : Z) (acc : pystr) : pystr :=
  match fuel with
  | O => acc
  | S fuel' =>
      if n <? 16 then hex_digit n :: acc
      else hex_digits fuel' (n / 16) (hex_digit (n mod 16) :: acc)
  end.
Definition format_04X (n : Z) : pystr :=
  let ds := hex_digits (S (Z.to_nat (Z.log2 n))) n [] in
  replicate (4 - length ds) 48 ++ ds.

End PyStr.
Export PyStr.

(** ** Codepoint registry (identical in both programs) *)

Module Registry.

(** [range(0x0020, 0x007F)]. *)
Definition printable_range : list Z := seqZ 0x20 (0x7F - 0x20).
(** The literal with the four currency symbols. *)
Definition currency_symbols : list Z := [EURO; POUND; YEN; BITCOIN].

(** The code points the two loops go through. *)
Definition mapped_codepoints : list Z := printable_range ++ currency_symbols.

(** The two loops filling [CHAR_MAP]. *)
Definition CHAR_MAP : gmap (list Z) (list Z) :=
  let m1 := fold_left (fun m cp => <[format_04X cp := [cp]]> m)
                      printable_range ∅ in
  fold_left (fun m ch => <[format_04X ch := [ch]]> m) currency_symbols m1.

Definition codepoint_to_char {U : UnicodeData} (hex_cp : pystr) : pystr :=
  default (lit "U+" ++ hex_cp) (CHAR_MAP !! upper hex_cp).

End Registry.
Export Registry.

(** ** Insertion-ordered dictionaries

    Where the order of [items()] is observable a Python [dict] is modelled
    as an association list without repeated keys, in insertion order. *)

Module PyDict.
Section Dict.
Context {K V : Type} (eqb : K -> K -> bool).

(** [d.get(k)]. *)
Fixpoint dict_get (k : K) (d : list (K * V)) : option V :=
  match d with
  | [] => None
  | (k', v) :: d' => if eqb k' k then Some v else dict_get k d'
  end.

(** [d[k] = v]: an existing key keeps its position. *)
Fixpoint dict_set (k : K) (v : V) (d : list (K * V)) : list (K * V) :=
  match d with
  | [] => [(k, v)]
  | (k', v') :: d' =>
      if eqb k' k then (k', v) :: d' else (k', v') :: dict_set k v d'
  end.
End Dict.
End PyDict.
Export PyDict.

(** ** The live collector, [server/server.py] *)

Module Server.
Export Registry.

(** Clock readings ([time.time()]) are ordered numbers that are only
    compared and stored; they are counted here in ticks of the clock. *)
Abbreviation timestamp := Z.

(** One value of the [sessions] table. *)
Record Session := mkSession {
  codepoints : gmap (list Z) timestamp;
  ip : pystr;
  user_agent : pystr;
  first_seen : timestamp;
  last_seen : timestamp
}.

(** The [defaultdict] factory. *)
Definition new_session : Session :=
  mkSession ∅ [] [] 0 0.

(** One entry of [access_log]. *)
Record LogEntry := mkLogEntry {
  e_timestamp : timestamp;
  e_datetime : pystr;
  e_ip : pystr;
  e_session_id : pystr;
  e_codepoint : pystr;
  e_character : pystr;
  e_user_agent : pystr
}.

(** The two module-level tables. *)
Record State := mkState {
  sessions : gmap (list Z) Session;
  access_log : list LogEntry
}.

Definition initial_state : State := mkState ∅ [].

(** What a font request brings along: the two path segments, the peer
    address, the [User-Agent] header if any, and the two clock readings
    taken by the handler. *)
Record FontRequest := mkFontRequest {
  rq_session_id : pystr;
  rq_codepoint : pystr;
  rq_remote_addr : pystr;
  rq_user_agent : option pystr;
  rq_now : timestamp;
  rq_datetime : pystr
}.

(** [sessions[session_id]] on the [defaultdict]. *)
Definition session_of (st : State) (session_id : pystr) : Session :=
  default new_session (sessions st !! session_id).

(** The effect of [serve_tracked_font] on the two tables (the font file
    that is sent back does not depend on them). *)
Definition serve_tracked_font {U : UnicodeData}
    (rq : FontRequest) (st : State) : State :=
  let session_id := rq_session_id rq in
  let codepoint := upper (rq_codepoint rq) in
  let now := rq_now rq in
  let ua := default [] (rq_user_agent rq) in
  let entry :=
    mkLogEntry now (rq_datetime rq) (rq_remote_addr rq) session_id
               codepoint (codepoint_to_char codepoint) ua in
  let sess := session_of st session_id in
  let sess' :=
    mkSession (<[codepoint := now]> (codepoints sess))
              (rq_remote_addr rq)
              ua
              (if first_seen sess =? 0 then now else first_seen sess)
              now in
  mkState (<[session_id := sess']> (sessions st))
          (access_log st ++ [entry]).

(** A run of requests, oldest first. *)
Definition serve_all {U : UnicodeData}
    (rqs : list FontRequest) (st : State) : State :=
  fold_left (fun st rq => serve_tracked_font rq st) rqs st.

(** The captured set of a session: the keys of its [codepoints]. *)
Definition captured (st : State) (session_id : pystr) : gset (list Z) :=
  dom (codepoints (session_of st session_id)).

Definition COMMON_WORDS : list pystr := map lit [
  "the"; "be"; "to"; "of"; "and"; "a"; "in"; "that"; "have"; "i";
  "it"; "for"; "not"; "on"; "with"; "he"; "as"; "you"; "do"; "at";
  "this"; "but"; "his"; "by"; "from"; "they"; "we"; "say"; "her";
  "she"; "or"; "an"; "will"; "my"; "one"; "all"; "would"; "there";
  "their"; "what"; "so"; "up"; "out"; "if"; "about"; "who"; "get";
  "which"; "go"; "me"; "when"; "make"; "can"; "like"; "time"; "no";
  "just"; "him"; "know"; "take"; "people"; "into"; "year"; "your";
  "good"; "some"; "could"; "them"; "see"; "other"; "than"; "then";
  "now"; "look"; "only"; "come"; "its"; "over"; "think"; "also";
  "back"; "after"; "use"; "two"; "how"; "our"; "work"; "first";
  "well"; "way"; "even"; "new"; "want"; "because"; "any"; "these";
  "give"; "day"; "most"; "us"; "bank"; "account"; "balance";
  "transfer"; "payment"; "salary"; "credit"; "debit"; "card";
  "savings"; "current"; "iban"; "transaction"; "amount"; "total";
  "euro"; "monthly"; "pass"; "food"; "delivery"; "secure";
  "security"; "personal"; "welcome"; "active"; "enabled";
  "helsinki"; "finland"
]%string.

(** [all(c in char_set_lower for c in word)]: each [c] is a string of
    length one. *)
Definition spellable (char_set_lower : gset (list Z)) (word : pystr) : bool :=
  forallb (fun c => bool_decide ([c] ∈ char_set_lower)) word.

Definition infer_words {U : UnicodeData}
    (char_set : gset (list Z)) : list pystr :=
  let char_set_lower : gset (list Z) := set_map lower char_set in
  let possible := List.filter (spellable char_set_lower) COMMON_WORDS in
  take 15 (sort_len_desc possible).

(** [xs[i:]] for any integer [i]. *)
Definition slice_from {A} (xs : list A) (i : Z) : list A :=
  if i <? 0 then drop (Z.to_nat (Z.of_nat (length xs) + i)) xs
  else drop (Z.to_nat i) xs.

(** [api_log] once [since] has been read off the query string. *)
Definition api_log (since : Z) (st : State) : list LogEntry * nat :=
  let entries := slice_from (access_log st) since in
  (slice_from entries (-100), length (access_log st)).

End Server.

(** ** The offline tool, [analysis/reconstruct.py] *)

Module Reconstruct.
Export Registry.

Definition WORD_LISTS : list (pystr * list pystr) := [
  (lit "banking", map lit [
      "account"; "balance"; "transfer"; "payment"; "salary"; "credit";
      "debit"; "card"; "savings"; "current"; "iban"; "transaction";
      "amount"; "total"; "euro"; "monthly"; "statement"; "withdraw";
      "deposit"; "interest"; "loan"; "mortgage"; "overdraft"; "fee";
      "charge"; "refund"; "pending"; "completed"; "failed"; "secure";
      "security"; "authentication"; "password"; "login"; "session";
      "active"; "expired"; "personal"; "business"; "joint"; "holder"
    ]%string);
  (lit "common", map lit [
      "the"; "be"; "to"; "of"; "and"; "a"; "in"; "that"; "have"; "it";
      "for"; "not"; "on"; "with"; "as"; "you"; "do"; "at"; "this"; "but";
      "by"; "from"; "they"; "we"; "say"; "her"; "she"; "or"; "an"; "will";
      "my"; "one"; "all"; "would"; "there"; "their"; "what"; "so"; "up";
      "out"; "if"; "about"; "who"; "get"; "which"; "go"; "me"; "when";
      "make"; "can"; "like"; "time"; "no"; "just"; "know"; "take";
      "people"; "into"; "year"; "your"; "good"; "some"; "could"; "them";
      "see"; "other"; "than"; "then"; "now"; "look"; "only"; "come";
      "back"; "after"; "use"; "two"; "how"; "our"; "work"; "first";
      "well"; "way"; "even"; "new"; "want"; "because"; "any"; "these";
      "give"; "day"; "most"
    ]%string);
  (lit "names", map lit [
      "mihalis"; "haatainen"; "antti"; "korhonen"; "sanna"; "virtanen";
      "helsinki"; "finland"; "bountyy"; "securebank"; "netflix"; "wolt"
    ]%string);
  (lit "numbers_currency", map lit [
      "0"; "1"; "2"; "3"; "4"; "5"; "6"; "7"; "8"; "9"
    ]%string)
].

(** [WORD_LISTS.get(category, [])]. *)
Definition words_of (category : pystr) : list pystr :=
  default [] (dict_get str_eqb category WORD_LISTS).

Definition spellable (char_set_lower : gset (list Z)) (w : pystr) : bool :=
  forallb (fun c => bool_decide ([c] ∈ char_set_lower)) w.

(** The body of the loop of [infer_words]: the list stored under one
    category. *)
Definition possible_words {U : UnicodeData}
    (char_set : gset (list Z)) (category : pystr) : list pystr :=
  let char_set_lower : gset (list Z) := set_map lower char_set in
  sort_len_desc (List.filter (spellable char_set_lower) (words_of category)).

(** [infer_words(char_set, categories)]; [None] stands for the default
    argument.  The result is the [results] dictionary. *)
Definition infer_words {U : UnicodeData} (char_set : gset (list Z))
    (categories : option (list pystr)) : list (pystr * list pystr) :=
  let categories := default (map fst WORD_LISTS) categories in
  fold_left
    (fun results category =>
       dict_set str_eqb category (possible_words char_set category) results)
    categories [].

(** The word-inference block of [print_session_analysis]: the lines it
    prints, as (category, top words) pairs. *)
Definition printed_inferred_words {U : UnicodeData}
    (chars : list pystr) : list (pystr * list pystr) :=
  let inferred := infer_words (list_to_set chars) None in
  omap (fun '(category, words) =>
          match words with
          | [] => None
          | _ => Some (category, take 10 words)
          end) inferred.

Record Analysis := mkAnalysis {
  total_unique : nat;
  has_digits : bool;
  has_uppercase : bool;
  has_lowercase : bool;
  has_currency : bool;
  has_punctuation : bool;
  digits : list pystr;
  uppercase : list pystr;
  lowercase : list pystr;
  special : list pystr;
  patterns : list pystr
}.

(** [set(s)] for a string literal [s]: its characters, as strings. *)
Definition charset_of (s : pystr) : gset (list Z) :=
  list_to_set (map (fun c => [c]) s).

Definition CURRENCY_CHARS : pystr := [EURO; POUND; YEN; BITCOIN; 36].
Definition PUNCTUATION_CHARS : pystr := lit ".,!?;:-()'" ++ [34].

Definition CURRENCY_AMOUNT : pystr :=
  lit "CURRENCY_AMOUNT (monetary values detected)".
Definition MIXED_CASE : pystr :=
  lit "MIXED_CASE (proper nouns or sentences)".
Definition FINNISH_IBAN : pystr :=
  lit "FINNISH_IBAN (FI prefix + digits)".
Definition EMAIL_ADDRESS : pystr :=
  lit "EMAIL_ADDRESS (@ symbol present)".

(** [bool(a & b)]. *)
Definition intersects (a b : gset (list Z)) : bool :=
  negb (bool_decide (a ∩ b = ∅)).

Definition analyze_character_set {U : UnicodeData}
    (chars : list pystr) : Analysis :=
  let has_digits := existsb isdigit chars in
  let has_uppercase := existsb isupper chars in
  let has_lowercase := existsb islower chars in
  let has_currency :=
    intersects (list_to_set chars) (charset_of CURRENCY_CHARS) in
  let has_punctuation :=
    intersects (list_to_set chars) (charset_of PUNCTUATION_CHARS) in
  let patterns :=
    (if has_currency && has_digits then [CURRENCY_AMOUNT] else [])
    ++ (if has_uppercase && has_lowercase then [MIXED_CASE] else [])
    ++ (if bool_decide (charset_of (lit "FI") ⊆ list_to_set chars)
           && existsb isdigit chars
        then [FINNISH_IBAN] else [])
    ++ (if bool_decide (lit "@" ∈ chars) then [EMAIL_ADDRESS] else []) in
  mkAnalysis
    (length chars) has_digits has_uppercase has_lowercase
    has_currency has_punctuation
    (sorted (List.filter isdigit chars))
    (sorted (List.filter isupper chars))
    (sorted (List.filter islower chars))
    (sorted (List.filter
               (fun c => negb (isalnum c) && negb (str_eqb c (lit " ")))
               chars))
    patterns.

(** *** Replaying a log file

    A decoded JSON document, as [json.loads] hands it over. Floats are
    kept as [m * 2^e], with the two infinities and NaN apart; the decoder
    has a single NaN object that it returns for every [NaN] literal. *)

Inductive pyfloat :=
| FFinite (m e : Z)
| FInf (negative : bool)
| FNaN.

#[local] Set Warnings "-register-all".
Inductive pyobj :=
| PNone
| PBool (b : bool)
| PInt (z : Z)
| PFloat (f : pyfloat)
| PStr (s : pystr)
| PList (items : list pyobj)
| PDict (items : list (pystr * pyobj)).

(** The exceptions met in [parse_log_file].  After the loop a codepoint
    that is not a string stops either [sorted] or [codepoint_to_char],
    whichever meets it first.  [json.loads] raises [JSONDecodeError] on a
    text that is not JSON, but also a plain [ValueError] (an integer with
    too many digits) or [RecursionError] (nesting too deep). *)
Inductive exn :=
| AttributeError
| TypeError
| TypeError_or_AttributeError
| JSONDecodeError
| ValueError
| RecursionError.

(** The decoder is the interpreter's.  [json_loads s] is the decoded
    document, each object with its keys already merged (no key twice), or
    [None] when [json.loads(s)] raises; [json_raises s] is then the
    exception it raises. *)
Class JsonDecoder := {
  json_loads : pystr -> option pyobj;
  json_raises : pystr -> exn
}.

Inductive outcome (A : Type) :=
| Returned (a : A)
| Raised (e : exn).
Arguments Returned {A} a.
Arguments Raised {A} e.

(** A decoded line is a record when it is a JSON object. *)
Definition is_object (o : pyobj) : bool :=
  match o with
  | PDict _ => true
  | _ => false
  end.

(** Lists and dictionaries cannot be keys or set members. *)
Definition hashable (o : pyobj) : bool :=
  match o with
  | PList _ | PDict _ => false
  | _ => true
  end.

(** The value of a finite number as [m * 2^e]. *)
Definition num_value (o : pyobj) : option (Z * Z) :=
  match o with
  | PBool b => Some (if b then 1 else 0, 0)
  | PInt z => Some (z, 0)
  | PFloat (FFinite m e) => Some (m, e)
  | _ => None
  end.

(** Whether two hashable values are the same key of a dictionary or the
    same member of a set: [a is b or a == b].  The decoder's NaN is one
    object, so it is found again although it is not equal to itself. *)
Definition key_eqb (a b : pyobj) : bool :=
  match a, b with
  | PNone, PNone => true
  | PStr s, PStr t => str_eqb s t
  | PFloat (FInf x), PFloat (FInf y) => Bool.eqb x y
  | PFloat FNaN, PFloat FNaN => true
  | _, _ =>
      match num_value a, num_value b with
      | Some (m1, e1), Some (m2, e2) =>
          let e := Z.min e1 e2 in
          m1 * 2 ^ (e1 - e) =? m2 * 2 ^ (e2 - e)
      | _, _ => false
      end
  end.

(** One value of the local [sessions] table. *)
Record LogSession := mkLogSession {
  ls_codepoints : list pyobj;
  ls_ip : pyobj
}.

Definition new_log_session : LogSession := mkLogSession [] (PStr []).

(** [s.add(x)]. *)
Definition set_add (x : pyobj) (s : list pyobj) : list pyobj :=
  if existsb (key_eqb x) s then s else s ++ [x].

(** [entry.get(key, default)] on a decoded object. *)
Definition entry_get (items : list (pystr * pyobj)) (key : string)
    (dflt : pyobj) : pyobj :=
  default dflt (dict_get str_eqb (lit key) items).

(** The statements inside [try]. *)
Definition record_entry (entry : pyobj)
    (sessions : list (pyobj * LogSession))
  : outcome (list (pyobj * LogSession)) :=
  match entry with
  | PDict items =>
      let sid := entry_get items "session_id" (PStr (lit "unknown")) in
      let cp := entry_get items "codepoint" (PStr []) in
      if negb (hashable sid) then Raised TypeError
      else if negb (hashable cp) then Raised TypeError
      else
        let data := default new_log_session (dict_get key_eqb sid sessions) in
        Returned
          (dict_set key_eqb sid
             (mkLogSession (set_add cp (ls_codepoints data))
                           (entry_get items "ip" (PStr [])))
             sessions)
  | _ => Raised AttributeError
  end.

(** The loop over the lines of the file; [except] names
    [json.JSONDecodeError] only, any other exception leaves the loop. *)
Fixpoint read_lines {U : UnicodeData} {J : JsonDecoder}
    (lines : list pystr) (sessions : list (pyobj * LogSession))
  : outcome (list (pyobj * LogSession)) :=
  match lines with
  | [] => Returned sessions
  | line :: rest =>
      let line := strip line in
      match line with
      | [] => read_lines rest sessions
      | _ =>
          match json_loads line with
          | None =>
              match json_raises line with
              | JSONDecodeError => read_lines rest sessions
              | e => Raised e
              end
          | Some entry =>
              match record_entry entry sessions with
              | Returned sessions' => read_lines rest sessions'
              | Raised e => Raised e
              end
          end
      end
  end.

(** One element of the [sessions] list that is returned. *)
Record SessionData := mkSessionData {
  sd_session_id : pyobj;
  sd_ip : pyobj;
  sd_characters : list pystr;
  sd_codepoints : list pystr;
  sd_char_count : nat
}.

Definition as_str (o : pyobj) : option pystr :=
  match o with
  | PStr s => Some s
  | _ => None
  end.

(** The loop that builds [result]. *)
Fixpoint build_result {U : UnicodeData}
    (sessions : list (pyobj * LogSession)) : outcome (list SessionData) :=
  match sessions with
  | [] => Returned []
  | (sid, data) :: rest =>
      match mapM as_str (ls_codepoints data) with
      | None => Raised TypeError_or_AttributeError
      | Some cps =>
          let chars := map codepoint_to_char (sorted cps) in
          match build_result rest with
          | Returned result =>
              Returned (mkSessionData sid (ls_ip data) chars (sorted cps)
                                      (length chars) :: result)
          | Raised e => Raised e
          end
      end
  end.

(** [parse_log_file] on the lines of the file. *)
Definition parse_log_file {U : UnicodeData} {J : JsonDecoder}
    (lines : list pystr) : outcome (list SessionData) :=
  match read_lines lines [] with
  | Returned sessions => build_result sessions
  | Raised e => Raised e
  end.

End Reconstruct.

(** ** A fact of the Unicode character database *)

Module UnicodeFacts.

(** No code point is both a digit and cased.  The interpreter's table has
    this property; the ASCII block has it by the definitions above, so it
    is stated for the rest of the table. *)
Definition digits_uncased (U : UnicodeData) : Prop :=
  forall c, uc_digit c = true -> uc_upper c = false /\ uc_lower c = false.

End UnicodeFacts.
Export UnicodeFacts.

(** ** The inference contract in the words of the specification *)

Module InferenceSpec.

(** Every constituent letter of the word, case-folded, is a member of the
    case-folded input set. *)
Definition spec_spellable {U : UnicodeData}
    (char_set : gset (list Z)) (w : pystr) : Prop :=
  Forall (fun c => lower [c] ∈ (set_map lower char_set : gset (list Z))) w.

#[export] Instance spec_spellable_dec {U : UnicodeData} char_set w :
  Decision (spec_spellable char_set w).
Proof. unfold spec_spellable. apply _. Defined.

(** [result] is [src] sorted by length, longest first, words of equal
    length in the order they have in [src]. *)
Definition by_length_desc_stable (src result : list pystr) : Prop :=
  StronglySorted (fun a b => (length b <= length a)%nat) result
  /\ forall n : nat,
      filter (fun w => length w = n) result =
      filter (fun w => length w = n) src.

End InferenceSpec.
Export InferenceSpec.

(** ** More of the collector: the log entry, the sessions endpoint *)

Module ServerApi.
Import Server.

(** The [entry] dictionary that [serve_tracked_font] appends to the log. *)
Definition log_entry_of {U : UnicodeData} (rq : FontRequest) : LogEntry :=
  mkLogEntry (rq_now rq) (rq_datetime rq) (rq_remote_addr rq)
             (rq_session_id rq) (upper (rq_codepoint rq))
             (codepoint_to_char (upper (rq_codepoint rq)))
             (default [] (rq_user_agent rq)).

(** [xs.sort(key=..., reverse=True)] for a numeric key: stable, largest key
    first. *)
Fixpoint insert_by_key_desc {A} (key : A -> Z) (x : A) (l : list A) : list A :=
  match l with
  | [] => [x]
  | y :: l' =>
      if key x <? key y then y :: insert_by_key_desc key x l' else x :: l
  end.
Definition sort_by_key_desc {A} (key : A -> Z) (xs : list A) : list A :=
  fold_right (insert_by_key_desc key) [] xs.

(** One element of the [sessions] list of the response. *)
Record SessionRow := mkSessionRow {
  r_session_id : pystr;
  r_ip : pystr;
  r_user_agent : pystr;
  r_first_seen : timestamp;
  r_last_seen : timestamp;
  r_char_count : nat;
  r_characters : list pystr;
  r_codepoints : list pystr;
  r_sorted_chars : pystr;
  r_inferred_words : list pystr
}.

(** The JSON object returned by [api_sessions]. *)
Record SessionsResponse := mkSessionsResponse {
  rs_sessions : list SessionRow;
  rs_session_count : nat;
  rs_total_chars : nat;
  rs_total_requests : nat;
  rs_unique_ips : nat
}.

(** The sign shown in place of a space. *)
Definition OPEN_BOX : Z := 0x2423.

(** [c if c != " " else OPEN_BOX]. *)
Definition display_char (c : pystr) : pystr :=
  if str_eqb c (lit " ") then [OPEN_BOX] else c.

(** The dictionary appended to [result] for one session. *)
Definition session_row {U : UnicodeData}
    (sid : pystr) (data : Session) : SessionRow :=
  let cps := sorted (map fst (map_to_list (codepoints data))) in
  let chars := map codepoint_to_char cps in
  let sorted_chars := concat (map display_char (sorted chars)) in
  let inferred := infer_words (list_to_set chars) in
  mkSessionRow sid (ip data) (take 80 (user_agent data))
               (first_seen data) (last_seen data)
               (length chars) chars cps sorted_chars inferred.

(** The loop of [api_sessions] over [sessions.items()]; its state is
    [result], [unique_ips] and [total_chars]. *)
Definition api_sessions_loop {U : UnicodeData}
    (items : list (pystr * Session))
  : list SessionRow * gset (list Z) * nat :=
  fold_left
    (fun '(result, unique_ips, total_chars) '(sid, data) =>
       if bool_decide (codepoints data = ∅)
       then (result, unique_ips, total_chars)
       else
         let row := session_row sid data in
         (result ++ [row], {[ip data]} ∪ unique_ips,
          (total_chars + r_char_count row)%nat))
    items ([], ∅, 0%nat).

(** [api_sessions]; [items] is [sessions.items()], the entries of the
    table in the order the sessions were first seen. *)
Definition api_sessions {U : UnicodeData}
    (items : list (pystr * Session)) (log : list LogEntry)
  : SessionsResponse :=
  let '(result, unique_ips, total_chars) := api_sessions_loop items in
  let result := sort_by_key_desc r_last_seen result in
  mkSessionsResponse result (length result) total_chars (length log)
                     (size unique_ips).

End ServerApi.

(** ** The character table and the per-session style sheet

    [fonts/generate.py] defines [CHARACTERS]; [generate_session_css] of the
    collector imports it and otherwise rebuilds the same table. *)

Module Fonts.

(** [range(a, b)]. *)
Definition py_range (a b : Z) : list Z := seqZ a (b - a).

(** [for ch in s: CHARACTERS[ord(ch)] = ch]. *)
Definition add_chars (s : list Z) (d : list (Z * pystr)) : list (Z * pystr) :=
  fold_left (fun d ch => dict_set Z.eqb ch [ch] d) s d.

Definition CHARACTERS : list (Z * pystr) :=
  let d := add_chars (py_range 0x0061 0x007B) [] in
  let d := add_chars (py_range 0x0041 0x005B) d in
  let d := add_chars (py_range 0x0030 0x003A) d in
  let d := dict_set Z.eqb 0x0020 (lit "space") d in
  let d := add_chars (lit ".!?,'" ++ [34] ++ lit "-():;/@#$%&*+=") d in
  let d := add_chars [EURO; POUND; YEN; BITCOIN] d in
  add_chars (lit "<>{}[]|\~^_") d.

(** [sorted(xs)] for integers. *)
Fixpoint sorted_int_insert (x : Z) (l : list Z) : list Z :=
  match l with
  | [] => [x]
  | y :: l' => if x <? y then x :: l else y :: sorted_int_insert x l'
  end.
Definition sorted_int (xs : list Z) : list Z :=
  fold_left (fun acc x => sorted_int_insert x acc) xs [].

Definition EM_DASH : Z := 0x2014.
Definition NEWLINE : Z := 10.

(** The [src:] line of one rule. *)
Definition src_line (session_id hex_cp : pystr) : pystr :=
  lit "  src: url('/fonts/t/" ++ session_id ++ lit "/" ++ hex_cp
  ++ lit ".woff2') format('woff2');".

(** The five lines appended for one code point. *)
Definition font_face_rule (session_id : pystr) (codepoint : Z) : list pystr :=
  let hex_cp := format_04X codepoint in
  let char_name := default [] (dict_get Z.eqb codepoint CHARACTERS) in
  let comment :=
    if (length char_name =? 1)%nat then char_name
    else lit "(" ++ char_name ++ lit ")" in
  [ lit "@font-face {";
    lit "  font-family: 'TypeBleed';";
    src_line session_id hex_cp;
    lit "  unicode-range: U+" ++ hex_cp ++ lit "; /* " ++ comment ++ lit " */";
    lit "}" ++ [NEWLINE] ].

(** The list [rules] of [generate_session_css]. *)
Definition session_css_rules (session_id : pystr) : list pystr :=
  [ lit "/* TypeBleed " ++ [EM_DASH] ++ lit " per-session exfiltration CSS */";
    lit "/* Session: " ++ session_id ++ lit " */" ++ [NEWLINE] ]
  ++ flat_map (font_face_rule session_id) (sorted_int (map fst CHARACTERS)).

(** [sep.join(xs)]. *)
Fixpoint join (sep : pystr) (xs : list pystr) : pystr :=
  match xs with
  | [] => []
  | [x] => x
  | x :: xs' => x ++ sep ++ join sep xs'
  end.

Definition generate_session_css (session_id : pystr) : pystr :=
  join [NEWLINE] (session_css_rules session_id).

End Fonts.

(** ** Well-formed log records *)

Module ReplaySpec.
Import Reconstruct.

(** A decoded line that [parse_log_file] can aggregate and display: an
    object whose session id can be a dictionary key and whose codepoint is
    a string (either of them may be missing). *)
Definition well_formed_record (o : pyobj) : Prop :=
  match o with
  | PDict items =>
      hashable (entry_get items "session_id" (PStr (lit "unknown"))) = true
      /\ exists cp, entry_get items "codepoint" (PStr []) = PStr cp
  | _ => False
  end.

(** The lines that the loop does not pass over: not blank, and not
    rejected by the decoder with [JSONDecodeError]. *)
Definition counted_line {U : UnicodeData} {J : JsonDecoder}
    (line : pystr) : Prop :=
  strip line <> []
  /\ (is_Some (json_loads (strip line))
      \/ json_raises (strip line) <> JSONDecodeError).

#[export] Instance exn_eq_dec : EqDecision exn.
Proof. solve_decision. Defined.

#[export] Instance counted_line_dec {U : UnicodeData} {J : JsonDecoder} line :
  Decision (counted_line line).
Proof. unfold counted_line. apply _. Defined.

(** What the loop keeps true of every session when the records are well
    formed: its codepoints are distinct strings, and there is one at
    least. *)
Definition strings_only (data : LogSession) : Prop :=
  exists cps : list pystr,
    ls_codepoints data = map PStr cps /\ NoDup cps /\ cps <> [].

(** The properties of one returned session. *)
Definition session_data_ok {U : UnicodeData} (r : SessionData) : Prop :=
  StronglySorted str_le (sd_codepoints r) /\ NoDup (sd_codepoints r)
  /\ sd_codepoints r <> []
  /\ sd_characters r = map codepoint_to_char (sd_codepoints r)
  /\ sd_char_count r = length (sd_codepoints r).

End ReplaySpec.
Export ReplaySpec.

(** ** Sample inputs *)

Module Samples.
Import Server Reconstruct.

Definition sid_abc : pystr := lit "abc123".

(** A request of session [abc123] for codepoint [cp] served at time [t]. *)
Definition request_at (cp : string) (t : Z) : FontRequest :=
  mkFontRequest sid_abc (lit cp) (lit "10.0.0.7") (Some (lit "Mozilla/5.0"))
                t (lit "2026-01-01T00:00:00+00:00").

(** The 26 lowercase letters, as a character set. *)
Definition lowercase_letters : gset (list Z) :=
  list_to_set (map (fun c => [c]) (seqZ 97 26)).

(** The letters of the word [balance]. *)
Definition balance_letters : gset (list Z) :=
  list_to_set (map (fun c => [c]) (lit "balance")).

Definition record_line : pystr :=
  lit "{'session_id': 's1', 'codepoint': '0041', 'ip': '1.2.3.4'}".

(** A decoder that knows two documents: the record above (written with
    JSON's double quotes in the file) and the number [42]. *)
Definition two_line_decoder : JsonDecoder :=
  {| json_raises := fun _ => JSONDecodeError;
     json_loads := fun s =>
       if str_eqb s (lit "42") then Some (PInt 42)
       else if str_eqb s record_line then
         Some (PDict [(lit "session_id", PStr (lit "s1"));
                      (lit "codepoint", PStr (lit "0041"));
                      (lit "ip", PStr (lit "1.2.3.4"))])
       else None |}.

End Samples.

(** ** More sample inputs *)

Module MoreSamples.
Import Server Reconstruct.

Definition empty_object_line : pystr := lit "{}".
Definition lower_case_line : pystr :=
  lit "{'session_id': 's1', 'codepoint': '006a'}".
Definition upper_case_line : pystr :=
  lit "{'session_id': 's1', 'codepoint': '006A'}".

(** A decoder that knows the three documents above (written with JSON's
    double quotes in the file). *)
Definition three_line_decoder : JsonDecoder :=
  {| json_raises := fun _ => JSONDecodeError;
     json_loads := fun s =>
       if str_eqb s empty_object_line then Some (PDict [])
       else if str_eqb s lower_case_line then
         Some (PDict [(lit "session_id", PStr (lit "s1"));
                      (lit "codepoint", PStr (lit "006a"))])
       else if str_eqb s upper_case_line then
         Some (PDict [(lit "session_id", PStr (lit "s1"));
                      (lit "codepoint", PStr (lit "006A"))])
       else None |}.

(** A request of session [sid] for codepoint [cp] from address [addr]. *)
Definition request_from (sid cp addr : string) (t : Z) : FontRequest :=
  mkFontRequest (lit sid) (lit cp) (lit addr) None t
                (lit "2026-01-01T00:00:00+00:00").

End MoreSamples.

(** * Properties *)

(** Membership in a concrete list, by evaluation. *)
Ltac solve_elem := apply (bool_decide_unpack _); vm_compute; exact I.

(** ** Codepoint registry *)

Section RegistryFacts.
Context {U : UnicodeData}.

Lemma fold_insert_lookup (f : Z -> list Z) (cps : list Z)
    (m : gmap (list Z) (list Z)) k v :
  fold_left (fun m cp => <[f cp := [cp]]> m) cps m !! k = Some v ->
  m !! k = Some v \/ exists cp, cp ∈ cps /\ k = f cp.
Proof.
  revert m. induction cps as [|cp cps IH]; intros m Hk; simpl in Hk.
  - by left.
  - destruct (IH _ Hk) as [Hm | (cp' & Hin & ->)].
    + destruct (decide (f cp = k)) as [<- | Hne].
      * right. exists cp. split; [left | done].
      * left. by rewrite lookup_insert_ne in Hm.
    + right. exists cp'. split; [by right | done].
Qed.

Lemma CHAR_MAP_keys k v :
  CHAR_MAP !! k = Some v -> exists cp, cp ∈ mapped_codepoints /\ k = format_04X cp.
Proof.
  unfold CHAR_MAP, mapped_codepoints. intros Hk.
  apply fold_insert_lookup in Hk as [Hk | (cp & Hin & ->)].
  - apply fold_insert_lookup in Hk as [Hk | (cp & Hin & ->)].
    + by rewrite lookup_empty in Hk.
    + exists cp. split; [apply elem_of_app; by left | done].
  - exists cp. split; [apply elem_of_app; by right | done].
Qed.

Lemma CHAR_MAP_glyph cp :
  cp ∈ mapped_codepoints -> CHAR_MAP !! format_04X cp = Some [cp].
Proof.
  intros Hin.
  assert (Hall : forallb
            (fun cp => bool_decide (CHAR_MAP !! format_04X cp = Some [cp]))
            mapped_codepoints = true) by (vm_compute; reflexivity).
  rewrite forallb_forall in Hall.
  apply list_elem_of_In, Hall in Hin. by apply bool_decide_eq_true in Hin.
Qed.

(** C4. [codepoint_to_char] is total; a code point of the printable ASCII
    range or of the currency set, written with four hexadecimal digits in
    any letter case, yields its glyph; every other input yields ["U+"]
    followed by the input; and ["FFFF"] yields ["U+FFFF"]. *)
Theorem codepoint_to_char_total_case_insensitive :
  (forall cp hex_cp,
      cp ∈ mapped_codepoints -> upper hex_cp = format_04X cp ->
      codepoint_to_char hex_cp = [cp])
  /\ (forall hex_cp,
        (forall cp, cp ∈ mapped_codepoints -> upper hex_cp <> format_04X cp) ->
        codepoint_to_char hex_cp = lit "U+" ++ hex_cp)
  /\ (forall cp, cp ∈ mapped_codepoints <->
                 (0x20 <= cp <= 0x7E) \/ cp ∈ [EURO; POUND; YEN; BITCOIN])
  /\ codepoint_to_char (lit "FFFF") = lit "U+FFFF".
Proof.
  split; [|split; [|split]].
  - intros cp hex_cp Hin Hup. unfold codepoint_to_char.
    by rewrite Hup, (CHAR_MAP_glyph _ Hin).
  - intros hex_cp Hno. unfold codepoint_to_char.
    destruct (CHAR_MAP !! upper hex_cp) as [g|] eqn:Hk; [|done].
    apply CHAR_MAP_keys in Hk as (cp & Hin & Heq). by destruct (Hno cp Hin).
  - intros cp. unfold mapped_codepoints, printable_range, currency_symbols.
    rewrite elem_of_app, elem_of_seqZ. split; intros [H|H]; auto; left; lia.
  - vm_compute. reflexivity.
Qed.

End RegistryFacts.

(** The glyph of a mapped code point, asked for in lower and in mixed case. *)
Lemma codepoint_to_char_case_witness :
  codepoint_to_char (U := ascii_only_table) (lit "007e") = lit "~"
  /\ codepoint_to_char (U := ascii_only_table) (lit "20aC") = [EURO].
Proof.
  pose proof (codepoint_to_char_total_case_insensitive (U := ascii_only_table))
    as (Hglyph & _).
  split.
  - apply (Hglyph 0x7E); [|reflexivity].
    unfold mapped_codepoints. rewrite elem_of_app. left.
    apply elem_of_seqZ. lia.
  - apply (Hglyph EURO); [|reflexivity].
    unfold mapped_codepoints. rewrite elem_of_app. right. left.
Defined.

(** ** Session store and event log of the collector *)

Section ServerFacts.
Import Server.
Context {U : UnicodeData}.

Lemma session_of_serve_same rq st :
  session_of (serve_tracked_font rq st) (rq_session_id rq) =
  mkSession
    (<[upper (rq_codepoint rq) := rq_now rq]>
       (codepoints (session_of st (rq_session_id rq))))
    (rq_remote_addr rq)
    (default [] (rq_user_agent rq))
    (if first_seen (session_of st (rq_session_id rq)) =? 0
     then rq_now rq else first_seen (session_of st (rq_session_id rq)))
    (rq_now rq).
Proof.
  unfold session_of at 1, serve_tracked_font. simpl.
  by rewrite lookup_insert_eq.
Qed.

Lemma session_of_serve_other rq st sid :
  sid <> rq_session_id rq ->
  session_of (serve_tracked_font rq st) sid = session_of st sid.
Proof.
  intros Hne. unfold session_of, serve_tracked_font. simpl.
  by rewrite lookup_insert_ne.
Qed.

Lemma serve_all_cons rq rqs st :
  serve_all (rq :: rqs) st = serve_all rqs (serve_tracked_font rq st).
Proof. reflexivity. Qed.

Lemma last_cons_default (a d : Z) (l : list Z) :
  List.last (a :: l) d = List.last l a.
Proof.
  revert a d. induction l as [|b l IH]; intros a d; [done|].
  change (List.last (a :: b :: l) d) with (List.last (b :: l) d).
  by rewrite !IH.
Qed.

Lemma max_fold_absorb (a d : Z) (l : list Z) :
  d <= a -> Z.max a (fold_right Z.max d l) = fold_right Z.max a l.
Proof.
  intros Hda. induction l as [|x l IH]; simpl; [lia|].
  rewrite <- IH. lia.
Qed.

Lemma last_of_sorted_is_max (d : Z) (l : list Z) :
  Sorted Z.le (d :: l) -> List.last l d = fold_right Z.max d l.
Proof.
  revert d. induction l as [|a l IH]; intros d Hs; [done|].
  rewrite last_cons_default.
  apply Sorted_inv in Hs as [Hs Hhd]. apply HdRel_inv in Hhd.
  rewrite (IH a Hs). simpl. symmetry. by apply max_fold_absorb.
Qed.

(** The timestamps of the requests of one session, in arrival order. *)
Lemma last_seen_after_run sid (rqs : list FontRequest) st :
  last_seen (session_of (serve_all rqs st) sid) =
  List.last (map rq_now (filter (fun rq => rq_session_id rq = sid) rqs))
            (last_seen (session_of st sid)).
Proof.
  revert st. induction rqs as [|rq rqs IH]; intros st; [done|].
  rewrite serve_all_cons, IH.
  destruct (decide (rq_session_id rq = sid)) as [Heq | Hne].
  - rewrite filter_cons_True by done. simpl map.
    rewrite last_cons_default. subst sid.
    by rewrite session_of_serve_same.
  - rewrite filter_cons_False by done.
    by rewrite session_of_serve_other.
Qed.

(** C1 (as amended). A request overwrites [last_seen] with its own clock
    reading: after any run of requests the [last_seen] of a session is the
    reading of the latest request of that session, and this is the
    maximum of all readings when they arrive in non-decreasing order. *)
Theorem last_seen_is_latest_timestamp sid (rqs : list FontRequest) st :
  let ts := map rq_now (filter (fun rq => rq_session_id rq = sid) rqs) in
  let t0 := last_seen (session_of st sid) in
  last_seen (session_of (serve_all rqs st) sid) = List.last ts t0
  /\ (Sorted Z.le (t0 :: ts) ->
      last_seen (session_of (serve_all rqs st) sid) = fold_right Z.max t0 ts).
Proof.
  intros ts t0. split.
  - apply last_seen_after_run.
  - intros Hs. rewrite last_seen_after_run. by apply last_of_sorted_is_max.
Qed.

Lemma captured_serve_same rq st :
  captured (serve_tracked_font rq st) (rq_session_id rq) =
  {[upper (rq_codepoint rq)]} ∪ captured st (rq_session_id rq).
Proof.
  unfold captured. rewrite session_of_serve_same. simpl.
  apply dom_insert_L.
Qed.

Lemma captured_serve_other rq st sid :
  sid <> rq_session_id rq ->
  captured (serve_tracked_font rq st) sid = captured st sid.
Proof. intros Hne. unfold captured. by rewrite session_of_serve_other. Qed.

Lemma captured_step rq st sid :
  captured st sid ⊆ captured (serve_tracked_font rq st) sid.
Proof.
  destruct (decide (sid = rq_session_id rq)) as [-> | Hne].
  - rewrite captured_serve_same. set_solver.
  - by rewrite captured_serve_other.
Qed.

Lemma captured_run rqs st sid :
  captured st sid ⊆ captured (serve_all rqs st) sid.
Proof.
  revert st. induction rqs as [|rq rqs IH]; intros st; [done|].
  rewrite serve_all_cons. etrans; [apply captured_step | apply IH].
Qed.

Lemma captured_seen_again rq st sid :
  upper (rq_codepoint rq) ∈ captured st (rq_session_id rq) ->
  captured (serve_tracked_font rq st) sid = captured st sid.
Proof.
  intros Hin. destruct (decide (sid = rq_session_id rq)) as [-> | Hne].
  - rewrite captured_serve_same.
    apply subseteq_union_1_L. by apply singleton_subseteq_l.
  - by rewrite captured_serve_other.
Qed.

(** C7. Over any run of requests the captured set of every session only
    grows, and so does its size; a request for a codepoint that the
    session already holds leaves the captured sets as they are, in
    particular when the same request is served twice. *)
Theorem captured_only_grows (rqs : list FontRequest) st sid :
  captured st sid ⊆ captured (serve_all rqs st) sid
  /\ (size (captured st sid) <= size (captured (serve_all rqs st) sid))%nat
  /\ (forall rq,
        upper (rq_codepoint rq) ∈ captured st (rq_session_id rq) ->
        captured (serve_tracked_font rq st) sid = captured st sid
        /\ size (captured (serve_tracked_font rq st) sid) =
           size (captured st sid))
  /\ (forall rq,
        captured (serve_tracked_font rq (serve_tracked_font rq st)) sid =
        captured (serve_tracked_font rq st) sid).
Proof.
  split; [|split; [|split]].
  - apply captured_run.
  - apply subseteq_size, captured_run.
  - intros rq Hin. by rewrite captured_seen_again.
  - intros rq. apply captured_seen_again.
    rewrite captured_serve_same. set_solver.
Qed.

(** C9. For [since >= 0] the entries returned by [api_log] are the log
    from position [max since (n - 100)] on, in log order: at most 100
    entries, the most recent ones among those at or after [since]; the
    total is the length of the log. *)
Theorem api_log_tail (since : Z) st :
  0 <= since ->
  let entries := (api_log since st).1 in
  let n := length (access_log st) in
  let start := (Z.to_nat since `max` (n - 100))%nat in
  entries = drop start (access_log st)
  /\ length entries = ((n - Z.to_nat since) `min` 100)%nat
  /\ (api_log since st).2 = n
  /\ (forall k e,
        entries !! k = Some e ->
        access_log st !! (start + k)%nat = Some e
        /\ (Z.to_nat since <= start + k)%nat).
Proof.
  intros Hsince entries n start.
  assert (Hentries : entries = drop start (access_log st)).
  { subst entries start n. unfold api_log, slice_from. simpl.
    destruct (since <? 0) eqn:Hneg; [lia|].
    rewrite drop_drop, length_drop. f_equal. lia. }
  split; [done|]. split; [|split].
  - rewrite Hentries, length_drop. subst start n. lia.
  - done.
  - intros k e Hk. rewrite Hentries, lookup_drop in Hk.
    split; [done | subst start; lia].
Qed.

End ServerFacts.

(** ** Word inference *)

Section SortFacts.

Lemma str_eqb_eq (a b : pystr) : str_eqb a b = true <-> a = b.
Proof.
  revert b. induction a as [|x a IH]; intros [|y b]; simpl; try done.
  rewrite andb_true_iff, Z.eqb_eq, IH. split.
  - by intros [-> ->].
  - intros [= -> ->]. done.
Qed.

Lemma elem_of_bfilter {A} (f : A -> bool) (l : list A) x :
  x ∈ List.filter f l <-> x ∈ l /\ f x = true.
Proof. rewrite !list_elem_of_In. apply filter_In. Qed.

Lemma bfilter_as_filter {A} (f : A -> bool) (P : A -> Prop)
    `{!forall x, Decision (P x)} (l : list A) :
  (forall x, x ∈ l -> f x = true <-> P x) ->
  List.filter f l = filter P l.
Proof.
  induction l as [|x l IH]; intros Hf; [done|]. simpl.
  rewrite IH by (intros y Hy; apply Hf; by right).
  specialize (Hf x (list_elem_of_here _ _)).
  destruct (f x) eqn:Hfx.
  - rewrite filter_cons_True; [done | by apply Hf].
  - rewrite filter_cons_False; [done|]. intros HP. apply Hf in HP. done.
Qed.

Lemma elem_of_insert_by_len x y l :
  y ∈ insert_by_len x l <-> y = x \/ y ∈ l.
Proof.
  induction l as [|z l IH]; simpl.
  - rewrite list_elem_of_singleton, elem_of_nil. tauto.
  - destruct (length x <? length z)%nat.
    + rewrite !elem_of_cons, IH. tauto.
    + rewrite !elem_of_cons. tauto.
Qed.

Lemma elem_of_sort_len_desc y l : y ∈ sort_len_desc l <-> y ∈ l.
Proof.
  induction l as [|x l IH]; simpl; [done|].
  rewrite elem_of_insert_by_len, elem_of_cons, IH. tauto.
Qed.

Lemma insert_by_len_sorted x l :
  StronglySorted (fun a b => (length b <= length a)%nat) l ->
  StronglySorted (fun a b => (length b <= length a)%nat) (insert_by_len x l).
Proof.
  induction 1 as [|z l Hs IH Hz]; simpl.
  - repeat constructor.
  - destruct (length x <? length z)%nat eqn:Hlt.
    + apply Nat.ltb_lt in Hlt. constructor; [done|].
      apply Forall_forall. intros y Hy.
      apply elem_of_insert_by_len in Hy as [-> | Hy]; [lia|].
      by eapply Forall_forall in Hz.
    + apply Nat.ltb_ge in Hlt. constructor; [by constructor|].
      constructor; [done|].
      eapply Forall_impl; [exact Hz|]. simpl. intros; lia.
Qed.

Lemma sort_len_desc_sorted l :
  StronglySorted (fun a b => (length b <= length a)%nat) (sort_len_desc l).
Proof.
  induction l as [|x l IH]; simpl; [constructor|].
  by apply insert_by_len_sorted.
Qed.

Lemma insert_by_len_bucket (n : nat) x l :
  filter (fun w : pystr => length w = n) (insert_by_len x l) =
  filter (fun w : pystr => length w = n) (x :: l).
Proof.
  induction l as [|z l IH]; simpl; [done|].
  destruct (length x <? length z)%nat eqn:Hlt; [|done].
  apply Nat.ltb_lt in Hlt.
  rewrite (filter_cons _ z), IH, !(filter_cons _ x), (filter_cons _ z).
  repeat case_decide; try done; lia.
Qed.

Lemma sort_len_desc_bucket (n : nat) l :
  filter (fun w : pystr => length w = n) (sort_len_desc l) =
  filter (fun w : pystr => length w = n) l.
Proof.
  induction l as [|x l IH]; simpl; [done|].
  rewrite insert_by_len_bucket, !(filter_cons _ x), IH. done.
Qed.

Lemma sort_len_desc_stable l : by_length_desc_stable l (sort_len_desc l).
Proof.
  split; [apply sort_len_desc_sorted | intros n; apply sort_len_desc_bucket].
Qed.

Lemma sorted_prefix_dominates (l : list pystr) (k : nat) v w :
  StronglySorted (fun a b => (length b <= length a)%nat) l ->
  v ∈ take k l -> w ∈ drop k l -> (length w <= length v)%nat.
Proof.
  intros Hs. revert k. induction Hs as [|z l Hs IH Hz]; intros k Hv Hw.
  - by rewrite take_nil in Hv; apply elem_of_nil in Hv.
  - destruct k as [|k]; simpl in *; [by apply elem_of_nil in Hv|].
    apply elem_of_cons in Hv as [-> | Hv]; [|by eapply IH].
    eapply Forall_forall in Hz; [exact Hz|].
    by eapply subseteq_drop.
Qed.

End SortFacts.

Section DictFacts.
Context {V : Type}.

Lemma dict_get_set_same (k : pystr) (v : V) d :
  dict_get str_eqb k (dict_set str_eqb k v d) = Some v.
Proof.
  induction d as [|[k' v'] d IH]; simpl.
  - by rewrite (proj2 (str_eqb_eq k k)).
  - destruct (str_eqb k' k) eqn:Hk; simpl; by rewrite Hk.
Qed.

Lemma dict_get_set_other (k k0 : pystr) (v : V) d :
  k0 <> k ->
  dict_get str_eqb k (dict_set str_eqb k0 v d) = dict_get str_eqb k d.
Proof.
  intros Hne. induction d as [|[k' v'] d IH]; simpl.
  - destruct (str_eqb k0 k) eqn:Hk; [|done].
    by apply str_eqb_eq in Hk.
  - destruct (str_eqb k' k0) eqn:Hk0; simpl.
    + apply str_eqb_eq in Hk0 as ->.
      destruct (str_eqb k0 k) eqn:Hk; [|done].
      by apply str_eqb_eq in Hk.
    + by rewrite IH.
Qed.

Lemma elem_of_dict_set (k k0 : pystr) (v v0 : V) d :
  (k, v) ∈ dict_set str_eqb k0 v0 d -> (k, v) ∈ d \/ (k = k0 /\ v = v0).
Proof.
  induction d as [|[k' v'] d IH]; simpl.
  - intros [= -> ->]%list_elem_of_singleton. by right.
  - destruct (str_eqb k' k0) eqn:Hk0.
    + apply str_eqb_eq in Hk0 as ->.
      intros [[= -> ->] | Hin]%elem_of_cons; [by right|].
      left. by right.
    + intros [[= -> ->] | Hin]%elem_of_cons; [left; by left|].
      destruct (IH Hin) as [? | ?]; [left; by right | by right].
Qed.

Lemma dict_get_elem_of (k : pystr) (v : V) d :
  dict_get str_eqb k d = Some v -> (k, v) ∈ d.
Proof.
  induction d as [|[k' v'] d IH]; simpl; [done|].
  destruct (str_eqb k' k) eqn:Hk.
  - apply str_eqb_eq in Hk as ->. intros [= ->]. by left.
  - intros Hd. right. by apply IH.
Qed.

End DictFacts.

Section InferenceFacts.
Import Reconstruct.
Context {U : UnicodeData}.

Lemma spellable_mono (S1 S2 : gset (list Z)) w :
  S1 ⊆ S2 -> spellable S1 w = true -> spellable S2 w = true.
Proof.
  intros Hsub. unfold spellable. rewrite !forallb_forall.
  intros Hw c Hc. specialize (Hw c Hc).
  apply bool_decide_eq_true. apply bool_decide_eq_true in Hw. by apply Hsub.
Qed.

Lemma lower_set_mono (A B : gset (list Z)) :
  A ⊆ B -> (set_map lower A : gset (list Z)) ⊆ set_map lower B.
Proof. intros Hsub. by apply set_map_mono. Qed.

Lemma elem_of_possible_words cs category w :
  w ∈ possible_words cs category <->
  w ∈ words_of category /\ spellable (set_map lower cs) w = true.
Proof. unfold possible_words. by rewrite elem_of_sort_len_desc, elem_of_bfilter. Qed.

Lemma possible_words_mono A B category w :
  A ⊆ B -> w ∈ possible_words A category -> w ∈ possible_words B category.
Proof.
  intros Hsub. rewrite !elem_of_possible_words. intros [Hw Hsp].
  split; [done|]. eapply spellable_mono; [|exact Hsp]. by apply lower_set_mono.
Qed.

(** What the [results] dictionary holds after the loop. *)
Lemma infer_loop_get cs (categories : list pystr) acc category :
  dict_get str_eqb category
    (fold_left
       (fun results c => dict_set str_eqb c (possible_words cs c) results)
       categories acc) =
  if decide (category ∈ categories) then Some (possible_words cs category)
  else dict_get str_eqb category acc.
Proof.
  revert acc. induction categories as [|c cats IH]; intros acc;
    cbn [fold_left].
  - rewrite decide_False; [done | apply not_elem_of_nil].
  - rewrite IH. destruct (decide (category ∈ cats)) as [Hin | Hnin].
    + rewrite decide_True; [done | by right].
    + destruct (decide (category = c)) as [-> | Hne].
      * rewrite decide_True by left. apply dict_get_set_same.
      * rewrite decide_False.
        -- by apply dict_get_set_other.
        -- by intros [? | ?]%elem_of_cons.
Qed.

Lemma infer_words_get cs categories category :
  dict_get str_eqb category (infer_words cs categories) =
  if decide (category ∈ default (map fst WORD_LISTS) categories)
  then Some (possible_words cs category) else None.
Proof. unfold infer_words. by rewrite infer_loop_get. Qed.

Lemma infer_loop_elem_of cs (categories : list pystr) acc category ws :
  (category, ws) ∈
    fold_left
      (fun results c => dict_set str_eqb c (possible_words cs c) results)
      categories acc ->
  (category, ws) ∈ acc \/ ws = possible_words cs category.
Proof.
  revert acc. induction categories as [|c cats IH]; intros acc; simpl.
  - by left.
  - intros [Hin | ->]%IH; [|by right].
    apply elem_of_dict_set in Hin as [Hin | [-> ->]]; [by left | by right].
Qed.

Lemma server_infer_words_eq cs :
  Server.infer_words cs =
  take 15 (sort_len_desc
             (List.filter (Server.spellable (set_map lower cs))
                          Server.COMMON_WORDS)).
Proof. reflexivity. Qed.

(** C2 (as amended). The inference of the reconstruction tool is monotone
    in the character set, category by category; the collector's
    [infer_words] keeps the 15 longest words only, so a word inferred from
    [A] is inferred from a larger [B] too unless 15 words of [B] that are
    at least as long take its place. *)
Theorem infer_words_monotone (A B : gset (list Z)) :
  A ⊆ B ->
  (forall category w,
      w ∈ possible_words A category -> w ∈ possible_words B category)
  /\ (forall categories category ws,
        dict_get str_eqb category (infer_words A categories) = Some ws ->
        exists ws',
          dict_get str_eqb category (infer_words B categories) = Some ws'
          /\ ws ⊆ ws')
  /\ (forall w,
        w ∈ Server.infer_words A ->
        w ∈ Server.infer_words B
        \/ (length (Server.infer_words B) = 15%nat
            /\ forall v, v ∈ Server.infer_words B ->
                         (length w <= length v)%nat)).
Proof.
  intros Hsub. split; [|split].
  - intros category w. by apply possible_words_mono.
  - intros categories category ws. rewrite !infer_words_get.
    case_decide; [|done]. intros [= <-].
    eexists. split; [done|]. intros w. by apply possible_words_mono.
  - intros w. rewrite !server_infer_words_eq.
    set (LA := sort_len_desc _). set (LB := sort_len_desc _).
    intros Hw. apply subseteq_take in Hw.
    assert (HwB : w ∈ LB).
    { subst LA LB. rewrite elem_of_sort_len_desc, elem_of_bfilter in *.
      destruct Hw as [Hw Hsp]. split; [done|].
      eapply spellable_mono; [|exact Hsp]. by apply lower_set_mono. }
    rewrite <- (take_drop 15 LB) in HwB.
    apply elem_of_app in HwB as [HwB | HwB]; [by left|]. right.
    split.
    + rewrite length_take. apply Nat.min_l.
      destruct (decide (15 <= length LB)%nat) as [|Hshort]; [done|].
      rewrite drop_ge in HwB by lia. by apply elem_of_nil in HwB.
    + intros v Hv. eapply sorted_prefix_dominates; [|exact Hv|exact HwB].
      apply sort_len_desc_sorted.
Qed.

End InferenceFacts.

Section InferenceContract.
Import Reconstruct.
Context {U : UnicodeData}.

Lemma lower_plain c : plain c = true -> lower [c] = [c].
Proof.
  unfold plain, lower, ascii_islower, ascii_isdigit, ascii_tolower,
    ascii_isupper, is_ascii. simpl. intros Hc.
  destruct (0 <=? c) eqn:?, (c <? 128) eqn:?, (65 <=? c) eqn:?,
    (c <=? 90) eqn:?; simpl; try done; lia.
Qed.

Lemma word_lists_plain category w :
  w ∈ words_of category -> forallb plain w = true.
Proof.
  unfold words_of. intros Hw.
  destruct (dict_get str_eqb category WORD_LISTS) as [ws|] eqn:Hget;
    simpl in Hw; [|by apply elem_of_nil in Hw].
  apply dict_get_elem_of in Hget.
  assert (Hall : forallb (fun kv => forallb (forallb plain) kv.2)
                   WORD_LISTS = true) by (vm_compute; reflexivity).
  rewrite forallb_forall in Hall.
  apply list_elem_of_In, Hall in Hget. simpl in Hget.
  rewrite forallb_forall in Hget. by apply Hget, list_elem_of_In.
Qed.

Lemma common_words_plain w :
  w ∈ Server.COMMON_WORDS -> forallb plain w = true.
Proof.
  assert (Hall : forallb (forallb plain) Server.COMMON_WORDS = true)
    by (vm_compute; reflexivity).
  rewrite forallb_forall in Hall. intros Hw. by apply Hall, list_elem_of_In.
Qed.

Lemma spellable_spec cs w :
  forallb plain w = true ->
  spellable (set_map lower cs) w = true <-> spec_spellable cs w.
Proof.
  unfold spellable, spec_spellable. rewrite !forallb_forall, Forall_forall.
  intros Hplain. split; intros Hw c Hc.
  - rewrite (lower_plain c) by (by apply Hplain, list_elem_of_In).
    eapply bool_decide_eq_true, Hw. by apply list_elem_of_In.
  - apply bool_decide_eq_true.
    rewrite <- (lower_plain c) by (by apply Hplain).
    by apply Hw, list_elem_of_In.
Qed.

Lemma possible_words_spec cs category :
  by_length_desc_stable
    (filter (spec_spellable cs) (words_of category))
    (possible_words cs category).
Proof.
  unfold possible_words.
  rewrite (bfilter_as_filter _ (spec_spellable cs)).
  - apply sort_len_desc_stable.
  - intros w Hw. apply spellable_spec. by eapply word_lists_plain.
Qed.

Lemma dict_set_fresh {V} (k : pystr) (v : V) d :
  k ∉ map fst d -> dict_set str_eqb k v d = d ++ [(k, v)].
Proof.
  induction d as [|[k' v'] d IH]; simpl; [done|].
  intros Hnin. apply not_elem_of_cons in Hnin as [Hne Hnin].
  destruct (str_eqb k' k) eqn:Hk.
  - apply str_eqb_eq in Hk. congruence.
  - by rewrite IH.
Qed.

Lemma infer_loop_fresh cs (categories : list pystr) acc :
  NoDup categories ->
  (forall c, c ∈ categories -> c ∉ map fst acc) ->
  fold_left
    (fun results c => dict_set str_eqb c (possible_words cs c) results)
    categories acc =
  acc ++ map (fun c => (c, possible_words cs c)) categories.
Proof.
  revert acc. induction categories as [|c0 cats IH]; intros acc Hnd Hfresh;
    cbn [fold_left].
  - by rewrite app_nil_r.
  - apply NoDup_cons in Hnd as [Hc0 Hnd].
    rewrite dict_set_fresh by (apply Hfresh; left). rewrite IH.
    + by rewrite <- app_assoc.
    + done.
    + intros c Hc. rewrite map_app, elem_of_app. simpl.
      rewrite list_elem_of_singleton.
      intros [Hin | ->]; [|done]. by apply (Hfresh c); [right|].
Qed.

Lemma infer_words_default cs :
  infer_words cs None =
  map (fun c => (c, possible_words cs c)) (map fst WORD_LISTS).
Proof.
  unfold infer_words. simpl default. rewrite infer_loop_fresh; [done | | ].
  - apply (bool_decide_unpack _). vm_compute. exact I.
  - intros c _. simpl. apply not_elem_of_nil.
Qed.

Lemma printed_shape_aux (cs : gset (list Z)) (keys : list pystr) :
  let printed :=
    omap (fun '(category, words) =>
            match words with
            | [] => None
            | _ => Some (category, take 10 words)
            end)
         (map (fun c => (c, possible_words cs c)) keys) in
  map fst printed `sublist_of` keys
  /\ (forall category,
        category ∈ map fst printed <->
        category ∈ keys /\ possible_words cs category <> [])
  /\ (forall category top,
        (category, top) ∈ printed ->
        top <> [] /\ (length top <= 10)%nat).
Proof.
  intros printed. subst printed. split; [|split].
  - induction keys as [|c keys IH]; cbn [map omap]; [done|].
    destruct (possible_words cs c); cbn [map fst].
    + by apply sublist_cons.
    + by apply sublist_skip.
  - intros category. rewrite list_elem_of_fmap. split.
    + intros ([c top] & -> & Hin). cbn [fst].
      apply list_elem_of_omap in Hin as ([c' ws] & Hin & Hsome).
      apply list_elem_of_fmap in Hin as (c'' & [= -> ->] & Hin).
      destruct (possible_words cs c'') eqn:Hp; [done|].
      injection Hsome as <- _. by rewrite Hp.
    + intros [Hin Hne].
      destruct (possible_words cs category) as [|w ws] eqn:Hp; [done|].
      exists (category, take 10 (w :: ws)). split; [done|].
      apply list_elem_of_omap. exists (category, w :: ws). split; [|done].
      apply list_elem_of_fmap. exists category. by rewrite Hp.
  - intros category top Hin.
    apply list_elem_of_omap in Hin as ([c' ws] & Hin & Hsome).
    destruct ws as [|w ws]; [done|]. injection Hsome as _ <-.
    split; [done|]. simpl. rewrite length_take. lia.
Qed.

(** C8. For every category the inferred list is that category's word
    list, filtered to the words whose every letter (case-folded) is in the
    case-folded character set, sorted by length, longest first, ties in
    list order; the reconstruction tool prints, for every category with a
    non-empty list and for no other, its first 10 words; and the collector
    returns the first 15 of the list obtained in the same way from its own
    vocabulary. *)
Theorem inference_is_filtered_sorted_truncated (cs : gset (list Z)) :
  (forall category,
      by_length_desc_stable
        (filter (spec_spellable cs) (words_of category))
        (possible_words cs category))
  /\ (forall category,
        category ∈ map fst WORD_LISTS ->
        dict_get str_eqb category (infer_words cs None) =
        Some (possible_words cs category))
  /\ (forall chars category top,
        (category, top) ∈ printed_inferred_words chars ->
        top = take 10 (possible_words (list_to_set chars) category))
  /\ (forall chars category,
        category ∈ map fst WORD_LISTS ->
        possible_words (list_to_set chars) category <> [] ->
        (category, take 10 (possible_words (list_to_set chars) category))
          ∈ printed_inferred_words chars)
  /\ (forall chars category top,
        (category, top) ∈ printed_inferred_words chars ->
        category ∈ map fst WORD_LISTS
        /\ possible_words (list_to_set chars) category <> [])
  /\ (exists candidates,
        by_length_desc_stable
          (filter (spec_spellable cs) Server.COMMON_WORDS) candidates
        /\ Server.infer_words cs = take 15 candidates).
Proof.
  split; [|split; [|split; [|split; [|split]]]].
  - apply possible_words_spec.
  - intros category Hin. rewrite infer_words_get.
    change (default (map fst WORD_LISTS) None) with (map fst WORD_LISTS).
    rewrite decide_True; [reflexivity | exact Hin].
  - intros chars category top. unfold printed_inferred_words.
    rewrite list_elem_of_omap. intros ([c ws] & Hin & Hsome).
    unfold infer_words in Hin.
    apply infer_loop_elem_of in Hin as [Hin | ->];
      [by apply elem_of_nil in Hin|].
    destruct (possible_words _ c) eqn:Hp; [done|].
    injection Hsome as -> <-. by rewrite Hp.
  - intros chars category Hin Hne. unfold printed_inferred_words.
    rewrite infer_words_default. apply list_elem_of_omap.
    exists (category, possible_words (list_to_set chars) category).
    split; [apply list_elem_of_fmap; by exists category|].
    by destruct (possible_words (list_to_set chars) category).
  - intros chars category top. unfold printed_inferred_words.
    rewrite infer_words_default.
    intros ([c ws] & Hin & Hsome)%list_elem_of_omap.
    apply list_elem_of_fmap in Hin as (c' & [= -> ->] & Hin).
    destruct (possible_words (list_to_set chars) c') eqn:Hp; [done|].
    injection Hsome as <- _. by rewrite Hp.
  - eexists. split; [|apply server_infer_words_eq].
    rewrite (bfilter_as_filter _ (spec_spellable cs)).
    + apply sort_len_desc_stable.
    + intros w Hw. apply spellable_spec. by apply common_words_plain.
Qed.

End InferenceContract.

(** ** Order of strings and [sorted] *)

Section OrderFacts.

Lemma str_ltb_asym a b : str_ltb a b = true -> str_ltb b a = false.
Proof.
  revert b. induction a as [|x a IH]; intros [|y b]; simpl; try done.
  intros H. apply orb_true_iff in H as [H | H].
  - apply Z.ltb_lt in H.
    destruct (y <? x) eqn:?, (y =? x) eqn:?; simpl; try done; lia.
  - apply andb_true_iff in H as [Hxy H]. apply Z.eqb_eq in Hxy as ->.
    rewrite Z.ltb_irrefl, Z.eqb_refl. simpl. by apply IH.
Qed.

Lemma str_le_trans a b c : str_le a b -> str_le b c -> str_le a c.
Proof.
  unfold str_le. revert b c.
  induction a as [|x a IH]; intros [|y b] [|z c]; simpl; try done.
  intros Hba Hcb.
  apply orb_false_iff in Hba as [Hyx Hba].
  apply orb_false_iff in Hcb as [Hzy Hcb].
  apply Z.ltb_ge in Hyx, Hzy.
  apply orb_false_iff. split; [apply Z.ltb_ge; lia|].
  destruct (z =? x) eqn:Hzx; [|done]. apply Z.eqb_eq in Hzx as ->.
  assert (y = x) as -> by lia.
  rewrite Z.eqb_refl in Hba, Hcb. simpl in *. by eapply IH.
Qed.

Lemma elem_of_sorted_insert x y l :
  y ∈ sorted_insert x l <-> y = x \/ y ∈ l.
Proof.
  induction l as [|z l IH]; simpl.
  - rewrite list_elem_of_singleton, elem_of_nil. tauto.
  - destruct (str_ltb x z).
    + rewrite !elem_of_cons. tauto.
    + rewrite !elem_of_cons, IH. tauto.
Qed.

Lemma sorted_insert_sorted x l :
  StronglySorted str_le l -> StronglySorted str_le (sorted_insert x l).
Proof.
  induction 1 as [|z l Hs IH Hz]; simpl.
  - repeat constructor.
  - destruct (str_ltb x z) eqn:Hlt.
    + constructor; [by constructor|]. constructor.
      * by apply str_ltb_asym.
      * eapply Forall_impl; [exact Hz|]. simpl. intros w Hw.
        eapply str_le_trans; [|exact Hw]. by apply str_ltb_asym.
    + constructor; [done|]. apply Forall_forall. intros w Hw.
      apply elem_of_sorted_insert in Hw as [-> | Hw]; [done|].
      by eapply Forall_forall in Hz.
Qed.

Lemma sorted_loop_sorted xs acc :
  StronglySorted str_le acc ->
  StronglySorted str_le (fold_left (fun acc x => sorted_insert x acc) xs acc).
Proof.
  revert acc. induction xs as [|x xs IH]; intros acc Hacc; simpl; [done|].
  by apply IH, sorted_insert_sorted.
Qed.

Lemma elem_of_sorted_loop y xs acc :
  y ∈ fold_left (fun acc x => sorted_insert x acc) xs acc <->
  y ∈ acc \/ y ∈ xs.
Proof.
  revert acc. induction xs as [|x xs IH]; intros acc; simpl.
  - rewrite elem_of_nil. tauto.
  - rewrite IH, elem_of_sorted_insert, elem_of_cons. tauto.
Qed.

Lemma sorted_is_sorted xs : StronglySorted str_le (sorted xs).
Proof. apply sorted_loop_sorted. constructor. Qed.

Lemma elem_of_sorted y xs : y ∈ sorted xs <-> y ∈ xs.
Proof.
  unfold sorted. rewrite elem_of_sorted_loop, elem_of_nil. tauto.
Qed.

End OrderFacts.

(** ** Character-set analysis *)

Section AnalysisFacts.
Import Reconstruct.
Context {U : UnicodeData}.

Lemma intersects_true (a b : gset (list Z)) :
  intersects a b = true <-> exists x, x ∈ a /\ x ∈ b.
Proof.
  unfold intersects. rewrite negb_true_iff, bool_decide_eq_false. split.
  - intros Hne. apply set_choose_L in Hne as [x Hx].
    exists x. by apply elem_of_intersection.
  - intros (x & Ha & Hb) Hempty.
    assert (Hx : x ∈ a ∩ b) by (by apply elem_of_intersection).
    rewrite Hempty in Hx. by apply not_elem_of_empty in Hx.
Qed.

Lemma elem_of_charset_of (x s : pystr) :
  x ∈ charset_of s <-> exists c, c ∈ s /\ x = [c].
Proof.
  unfold charset_of. rewrite elem_of_list_to_set, list_elem_of_fmap.
  split; intros (c & H1 & H2); by exists c.
Qed.

Lemma existsb_elem_of {A} (f : A -> bool) (l : list A) :
  existsb f l = true <-> exists x, x ∈ l /\ f x = true.
Proof.
  rewrite existsb_exists. split; intros (x & Hx & Hf); exists x;
    (split; [by apply list_elem_of_In | done]).
Qed.

(** C5 (as amended). [has_currency] holds exactly when the collection
    contains one of the five symbols of the analyzer's currency set: the
    euro, pound, yen and bitcoin signs and the dollar sign. *)
Theorem has_currency_iff (chars : list pystr) :
  has_currency (analyze_character_set chars) = true <->
  exists c, c ∈ chars /\ c ∈ [[EURO]; [POUND]; [YEN]; [BITCOIN]; lit "$"].
Proof.
  unfold analyze_character_set. cbn [has_currency].
  rewrite intersects_true.
  change [[EURO]; [POUND]; [YEN]; [BITCOIN]; lit "$"]
    with (map (fun c => [c]) CURRENCY_CHARS).
  unfold charset_of.
  split; intros (x & Hx & Hc); exists x.
  - by rewrite !elem_of_list_to_set in Hx, Hc.
  - by rewrite !elem_of_list_to_set.
Qed.

Lemma elem_of_if_singleton (b : bool) (x y : pystr) :
  x ∈ (if b then [y] else []) <-> b = true /\ x = y.
Proof.
  destruct b.
  - rewrite list_elem_of_singleton. tauto.
  - rewrite elem_of_nil. split; [done | by intros [? _]].
Qed.

Lemma FI_subset (chars : list pystr) :
  charset_of (lit "FI") ⊆ (list_to_set chars : gset (list Z)) <->
  lit "F" ∈ chars /\ lit "I" ∈ chars.
Proof.
  split.
  - intros Hsub.
    assert (Hin : forall x, x ∈ charset_of (lit "FI") -> x ∈ chars).
    { intros x Hx. apply Hsub in Hx. by apply elem_of_list_to_set in Hx. }
    split; apply Hin, elem_of_charset_of.
    + exists 70. split; [left | reflexivity].
    + exists 73. split; [right; left | reflexivity].
  - intros [HF HI] x (c & Hc & ->)%elem_of_charset_of.
    apply elem_of_list_to_set. vm_compute in Hc.
    repeat (apply elem_of_cons in Hc as [-> | Hc]; [done|]).
    by apply elem_of_nil in Hc.
Qed.

(** C6. [FINNISH_IBAN] is reported exactly when the collection holds the
    letter F, holds the letter I, and holds a digit; the collection
    F, I, 2, 1, 0 triggers it. *)
Theorem finnish_iban_iff (chars : list pystr) :
  (FINNISH_IBAN ∈ patterns (analyze_character_set chars) <->
   lit "F" ∈ chars /\ lit "I" ∈ chars
   /\ exists c, c ∈ chars /\ isdigit c = true)
  /\ FINNISH_IBAN ∈
       patterns (analyze_character_set (map lit ["F"; "I"; "2"; "1"; "0"]%string)).
Proof.
  assert (Hiff : forall chars : list pystr,
             FINNISH_IBAN ∈ patterns (analyze_character_set chars) <->
             lit "F" ∈ chars /\ lit "I" ∈ chars
             /\ exists c, c ∈ chars /\ isdigit c = true).
  { clear chars. intros chars.
    unfold analyze_character_set. cbn [patterns].
    rewrite !elem_of_app, !elem_of_if_singleton.
    split.
    - intros [[_ H] | [[_ H] | [[Hb _] | [_ H]]]];
        [by vm_compute in H | by vm_compute in H | | by vm_compute in H].
      apply andb_true_iff in Hb as [H1 H2].
      apply bool_decide_eq_true, FI_subset in H1.
      apply existsb_elem_of in H2. tauto.
    - intros (HF & HI & Hd). right. right. left. split; [|done].
      apply andb_true_iff. split.
      + by apply bool_decide_eq_true, FI_subset.
      + by apply existsb_elem_of. }
  split; [apply Hiff|].
  apply Hiff. split; [solve_elem|]. split; [solve_elem|].
  exists (lit "2"). split; [solve_elem | reflexivity].
Qed.

Lemma isdigit_isalnum s : isdigit s = true -> isalnum s = true.
Proof.
  unfold isdigit, isalnum. rewrite !andb_true_iff, !forallb_forall.
  intros [Hne Hd]. split; [done|]. intros c Hc.
  unfold cp_isalnum. rewrite (Hd c Hc). by rewrite !orb_true_r.
Qed.

Lemma isupper_not_islower s : isupper s = true -> islower s = false.
Proof.
  unfold isupper, islower. rewrite andb_true_iff. intros [_ Hup].
  apply existsb_exists in Hup as (c & Hc & Hup).
  apply andb_false_iff. left. apply negb_false_iff, existsb_exists.
  exists c. by rewrite Hup.
Qed.

Lemma ascii_digit_uncased c :
  is_ascii c = true -> cp_isdigit c = true ->
  cp_isupper c = false /\ cp_islower c = false.
Proof.
  unfold cp_isdigit, cp_isupper, cp_islower. intros ->.
  unfold ascii_isdigit, ascii_isupper, ascii_islower.
  rewrite andb_true_iff, !andb_false_iff, !Z.leb_le, !Z.leb_gt. lia.
Qed.

Lemma ascii_isdigit_uncased s :
  forallb is_ascii s = true -> isdigit s = true ->
  isupper s = false /\ islower s = false.
Proof.
  unfold isdigit, isupper, islower.
  rewrite andb_true_iff, !forallb_forall. intros Hascii [_ Hd].
  assert (Hno : forall f : Z -> bool,
             (forall c, is_ascii c = true -> cp_isdigit c = true -> f c = false) ->
             existsb f s = false).
  { intros f Hf. apply not_true_is_false.
    intros (c & Hc & Hfc)%existsb_exists.
    rewrite (Hf c (Hascii c Hc) (Hd c Hc)) in Hfc. done. }
  split; apply andb_false_iff; right; apply Hno; intros c Ha Hc;
    by apply ascii_digit_uncased.
Qed.

Lemma ascii_cased_isalnum x :
  is_ascii x = true ->
  isupper [x] = true \/ islower [x] = true -> isalnum [x] = true.
Proof.
  unfold isupper, islower, isalnum, cp_isalnum, cp_isalpha, cp_isupper,
    cp_islower, cp_istitle. simpl. intros ->. rewrite !orb_false_r, !andb_true_r.
  intros [[_ H]%andb_true_iff | [_ H]%andb_true_iff]; rewrite H;
    by rewrite ?orb_true_r.
Qed.

Lemma space_unclassified :
  isdigit (lit " ") = false /\ isupper (lit " ") = false
  /\ islower (lit " ") = false.
Proof. by vm_compute. Qed.

Lemma digit_code_point_uncased c :
  digits_uncased U -> cp_isdigit c = true ->
  cp_isupper c = false /\ cp_islower c = false.
Proof.
  intros Htable Hd. destruct (is_ascii c) eqn:Hascii.
  - by apply ascii_digit_uncased.
  - unfold cp_isdigit, cp_isupper, cp_islower in *. rewrite Hascii in *.
    by apply Htable.
Qed.

Lemma isdigit_uncased s :
  (forall c, c ∈ s -> cp_isdigit c = true ->
             cp_isupper c = false /\ cp_islower c = false) ->
  isdigit s = true -> isupper s = false /\ islower s = false.
Proof.
  unfold isdigit, isupper, islower.
  rewrite andb_true_iff, !forallb_forall. intros Huncased [_ Hd].
  assert (Hno : forall f : Z -> bool,
             (forall c, c ∈ s -> cp_isdigit c = true -> f c = false) ->
             existsb f s = false).
  { intros f Hf. apply not_true_is_false.
    intros (c & Hc & Hfc)%existsb_exists.
    rewrite (Hf c) in Hfc; [done | by apply list_elem_of_In | by apply Hd]. }
  split; apply andb_false_iff; right; apply Hno; intros c Hc Hdc;
    by apply Huncased.
Qed.

(** C10 (as amended). The four derived subsets are each sorted in
    ascending order and none holds the space character; [digits] is
    disjoint from [special], and [uppercase] from [lowercase]; [digits] is
    disjoint from [uppercase] and [lowercase] too, for every element made
    of ASCII characters outright and for every element whatever as no
    code point is both a digit and cased; an element that is a single
    ASCII character is not in [special] and in [uppercase] or [lowercase]
    at once. *)
Theorem analysis_subsets_sorted_space_free (chars : list pystr) :
  let a := analyze_character_set chars in
  (StronglySorted str_le (digits a) /\ StronglySorted str_le (uppercase a)
   /\ StronglySorted str_le (lowercase a) /\ StronglySorted str_le (special a))
  /\ ((lit " " ∉ digits a) /\ (lit " " ∉ uppercase a)
      /\ (lit " " ∉ lowercase a) /\ (lit " " ∉ special a))
  /\ (forall c, c ∈ digits a -> c ∉ special a)
  /\ (forall c, c ∈ uppercase a -> c ∉ lowercase a)
  /\ (forall c, c ∈ digits a -> forallb is_ascii c = true ->
                (c ∉ uppercase a) /\ (c ∉ lowercase a))
  /\ (digits_uncased U ->
      forall c, c ∈ digits a -> (c ∉ uppercase a) /\ (c ∉ lowercase a))
  /\ (forall x, is_ascii x = true -> [x] ∈ special a ->
                ([x] ∉ uppercase a) /\ ([x] ∉ lowercase a)).
Proof.
  intros a. subst a. unfold analyze_character_set.
  cbn [digits uppercase lowercase special].
  destruct space_unclassified as (Hsd & Hsu & Hsl).
  split; [|split; [|split; [|split; [|split; [|split]]]]].
  - repeat split; apply sorted_is_sorted.
  - repeat split; rewrite elem_of_sorted, elem_of_bfilter; intros [_ H];
      [congruence | congruence | congruence |].
    by vm_compute in H.
  - intros c. rewrite !elem_of_sorted, !elem_of_bfilter.
    intros [_ Hd] [_ Hs]. apply isdigit_isalnum in Hd. by rewrite Hd in Hs.
  - intros c. rewrite !elem_of_sorted, !elem_of_bfilter.
    intros [_ Hu] [_ Hl]. apply isupper_not_islower in Hu. congruence.
  - intros c. rewrite !elem_of_sorted, !elem_of_bfilter.
    intros [Hc Hd] Hascii.
    destruct (ascii_isdigit_uncased c Hascii Hd) as [Hu Hl].
    split; intros [_ H]; congruence.
  - intros Htable c. rewrite !elem_of_sorted, !elem_of_bfilter.
    intros [Hc Hd].
    destruct (isdigit_uncased c) as [Hu Hl]; [|done|].
    + intros x _. by apply digit_code_point_uncased.
    + split; intros [_ H]; congruence.
  - intros x Hx. rewrite !elem_of_sorted, !elem_of_bfilter.
    intros [Hc Hs].
    apply andb_true_iff in Hs as [Hs _]. apply negb_true_iff in Hs.
    split; intros [_ H];
      rewrite (ascii_cased_isalnum x Hx) in Hs; auto; done.
Qed.

End AnalysisFacts.

(** ** Replay of a log file *)

Section ReplayFacts.
Import Reconstruct.
Context {U : UnicodeData} {J : JsonDecoder}.

Lemma read_lines_app l1 l2 sessions :
  read_lines (l1 ++ l2) sessions =
  match read_lines l1 sessions with
  | Returned sessions' => read_lines l2 sessions'
  | Raised e => Raised e
  end.
Proof.
  revert sessions. induction l1 as [|line l1 IH]; intros sessions; [done|].
  simpl. destruct (strip line); [apply IH|].
  destruct (json_loads _).
  - destruct (record_entry _ _); [apply IH | done].
  - destruct (json_raises _); try done; apply IH.
Qed.



Lemma record_entry_non_object v sessions :
  is_object v = false -> record_entry v sessions = Raised AttributeError.
Proof. by destruct v. Qed.

(** C3 (where the program departs from it). A line that decodes to a JSON
    value other than an object is not passed over: [AttributeError]
    escapes [parse_log_file], whatever the lines before and after it. *)
Theorem parse_log_file_aborts_on_non_object before line after v sessions :
  read_lines before [] = Returned sessions ->
  strip line <> [] ->
  json_loads (strip line) = Some v ->
  is_object v = false ->
  parse_log_file (before ++ line :: after) = Raised AttributeError.
Proof.
  intros Hbefore Hline Hv Hobj. unfold parse_log_file.
  rewrite read_lines_app, Hbefore. simpl.
  destruct (strip line) eqn:Hs; [done|].
  by rewrite Hv, record_entry_non_object.
Qed.

End ReplayFacts.

(** ** Closed instances *)

Section Instances.
Import Server Reconstruct Samples.
#[local] Existing Instance ascii_only_table.
#[local] Existing Instance two_line_decoder.

(** C1, counterexample. A request served at time 5 followed by one served
    at time 3 leaves [last_seen] at 3, below the maximum of the two. *)
Lemma late_request_regresses_last_seen :
  let st1 := serve_tracked_font (request_at "0046" 5) initial_state in
  let st2 := serve_tracked_font (request_at "0049" 3) st1 in
  last_seen (session_of st1 sid_abc) = 5
  /\ last_seen (session_of st2 sid_abc) = 3
  /\ last_seen (session_of st2 sid_abc) <>
     Z.max (last_seen (session_of st1 sid_abc)) 3.
Proof. vm_compute. repeat split; congruence. Qed.

Lemma last_seen_is_latest_timestamp_witness :
  last_seen (session_of
               (serve_all [request_at "0046" 3; request_at "0049" 5]
                          initial_state) sid_abc) =
  fold_right Z.max 0 [3; 5].
Proof.
  apply (proj2 (last_seen_is_latest_timestamp
                  sid_abc [request_at "0046" 3; request_at "0049" 5]
                  initial_state)).
  vm_compute. repeat constructor; discriminate.
Defined.

Lemma captured_only_grows_witness :
  captured (serve_tracked_font (request_at "0046" 9)
              (serve_tracked_font (request_at "0046" 5) initial_state))
           sid_abc =
  captured (serve_tracked_font (request_at "0046" 5) initial_state) sid_abc.
Proof.
  apply (proj1 (proj2 (proj2
           (captured_only_grows []
              (serve_tracked_font (request_at "0046" 5) initial_state)
              sid_abc)))).
  solve_elem.
Defined.

Lemma api_log_tail_witness :
  let st := serve_all (map (request_at "0046") (seqZ 1 120)) initial_state in
  (api_log 7 st).1 =
  drop (Z.to_nat 7 `max` (length (access_log st) - 100)) (access_log st).
Proof.
  intros st. apply (api_log_tail 7 st). lia.
Defined.

(** C2, counterexample. The letter [a] alone yields the word [a]; the
    whole lowercase alphabet, which contains it, yields 15 longer words
    and not [a]. *)
Lemma server_infer_words_not_monotone :
  ({[lit "a"]} : gset (list Z)) ⊆ lowercase_letters
  /\ lit "a" ∈ Server.infer_words {[lit "a"]}
  /\ lit "a" ∉ Server.infer_words lowercase_letters.
Proof.
  split; [|split].
  - apply singleton_subseteq_l. solve_elem.
  - solve_elem.
  - apply (bool_decide_unpack _). vm_compute. exact I.
Qed.

Lemma infer_words_monotone_witness :
  lit "a" ∈ possible_words ({[lit "a"]} ∪ {[lit "n"]}) (lit "common").
Proof.
  apply (proj1 (infer_words_monotone {[lit "a"]} ({[lit "a"]} ∪ {[lit "n"]})
                  (union_subseteq_l _ _))).
  solve_elem.
Defined.

Lemma inference_contract_witness :
  dict_get str_eqb (lit "banking") (infer_words balance_letters None) =
  Some (possible_words balance_letters (lit "banking"))
  /\ (lit "banking",
      take 10 (possible_words
                 (list_to_set (map (fun c => [c]) (lit "balance")))
                 (lit "banking")))
     ∈ printed_inferred_words (map (fun c => [c]) (lit "balance")).
Proof.
  split.
  - apply (proj1 (proj2
             (inference_is_filtered_sorted_truncated balance_letters))).
    solve_elem.
  - apply (proj1 (proj2 (proj2 (proj2
             (inference_is_filtered_sorted_truncated balance_letters))))).
    + solve_elem.
    + by vm_compute.
Defined.

(** C5, counterexample. The dollar sign alone sets the flag, and it is
    none of the four symbols of the registry's currency set. *)
Lemma dollar_sets_has_currency :
  has_currency (analyze_character_set [lit "$"]) = true
  /\ ~ (exists c, c ∈ [lit "$"] /\ c ∈ [[EURO]; [POUND]; [YEN]; [BITCOIN]]).
Proof.
  split; [by vm_compute|].
  intros (c & ->%list_elem_of_singleton & Hc).
  revert Hc. apply (bool_decide_unpack _). vm_compute. exact I.
Qed.

(** C10, counterexample. The placeholder glyph of the unmapped code point
    [FFFF] is in [uppercase] and in [special] at once. *)
Lemma placeholder_is_uppercase_and_special :
  let a := analyze_character_set [codepoint_to_char (lit "FFFF")] in
  codepoint_to_char (lit "FFFF") ∈ uppercase a
  /\ codepoint_to_char (lit "FFFF") ∈ special a.
Proof. split; solve_elem. Qed.

Lemma analysis_subsets_witness :
  let a := analyze_character_set [lit "5"; [EURO]; lit "-"] in
  ((lit "5" ∉ uppercase a) /\ (lit "5" ∉ lowercase a))
  /\ ((lit "-" ∉ uppercase a) /\ (lit "-" ∉ lowercase a)).
Proof.
  split.
  - apply (proj1 (proj2 (proj2 (proj2 (proj2 (proj2
             (analysis_subsets_sorted_space_free
                [lit "5"; [EURO]; lit "-"]))))))).
    + intros c Hc. discriminate Hc.
    + solve_elem.
  - apply (proj2 (proj2 (proj2 (proj2 (proj2 (proj2
             (analysis_subsets_sorted_space_free
                [lit "5"; [EURO]; lit "-"])))))) 45).
    + reflexivity.
    + solve_elem.
Defined.

(** The failing input of C3: a well-formed record followed by the line
    [42]. *)
Lemma parse_log_file_aborts_witness :
  parse_log_file [record_line; lit "42"] = Raised AttributeError.
Proof.
  eapply (parse_log_file_aborts_on_non_object [record_line] (lit "42") []).
  - vm_compute. reflexivity.
  - by vm_compute.
  - vm_compute. reflexivity.
  - reflexivity.
Defined.

End Instances.


(** * Further properties of the collector *)

Section ServerRunFacts.
Import Server ServerApi.
Context {U : UnicodeData}.

Lemma serve_all_app rqs1 rqs2 st :
  serve_all (rqs1 ++ rqs2) st = serve_all rqs2 (serve_all rqs1 st).
Proof. unfold serve_all. apply fold_left_app. Qed.

Lemma access_log_after_run rqs st :
  access_log (serve_all rqs st) = access_log st ++ map log_entry_of rqs.
Proof.
  revert st. induction rqs as [|rq rqs IH]; intros st.
  - simpl. by rewrite app_nil_r.
  - rewrite serve_all_cons, IH. simpl. by rewrite <- app_assoc.
Qed.

(** X1. The log is append-only: a run of requests leaves the earlier
    entries in place and adds one entry per request, in arrival order,
    holding the uppercased codepoint and its glyph. *)
Theorem access_log_append_only (rqs : list FontRequest) st :
  access_log (serve_all rqs st) = access_log st ++ map log_entry_of rqs
  /\ length (access_log (serve_all rqs st)) =
     (length (access_log st) + length rqs)%nat
  /\ forall i e, access_log st !! i = Some e ->
                 access_log (serve_all rqs st) !! i = Some e.
Proof.
  rewrite access_log_after_run. split; [done|]. split.
  - by rewrite length_app, length_map.
  - intros i e Hi. by apply lookup_app_l_Some.
Qed.

Lemma captured_after_run rqs st sid :
  captured (serve_all rqs st) sid =
  captured st sid ∪
  list_to_set (map (fun rq => upper (rq_codepoint rq))
                   (filter (fun rq => rq_session_id rq = sid) rqs)).
Proof.
  revert st. induction rqs as [|rq rqs IH]; intros st.
  - change (serve_all [] st) with st.
    rewrite filter_nil. simpl map.
    by rewrite list_to_set_nil, (right_id_L ∅ (∪)).
  - rewrite serve_all_cons, IH.
    destruct (decide (rq_session_id rq = sid)) as [<- | Hne].
    + rewrite filter_cons_True by done. rewrite captured_serve_same.
      simpl map. rewrite list_to_set_cons, !(assoc_L (∪)).
      by rewrite (comm_L (∪) (captured st _)).
    + rewrite filter_cons_False by done.
      by rewrite captured_serve_other.
Qed.

(** X2. The two tables agree: after any run from the empty tables, the
    captured set of a session is the set of codepoints that the log
    records for that session. *)
Theorem captured_matches_log (rqs : list FontRequest) sid :
  let st := serve_all rqs initial_state in
  captured st sid =
  list_to_set (map e_codepoint
                   (filter (fun e => e_session_id e = sid) (access_log st))).
Proof.
  intros st. subst st. rewrite captured_after_run, access_log_after_run.
  simpl. unfold captured at 1, session_of. simpl.
  rewrite lookup_empty. simpl. rewrite dom_empty_L, (left_id_L ∅ (∪)).
  induction rqs as [|rq rqs IH]; [done|]. simpl map.
  destruct (decide (rq_session_id rq = sid)) as [Heq | Hne].
  - rewrite !filter_cons_True by done. simpl. by rewrite IH.
  - by rewrite !filter_cons_False by done.
Qed.

Lemma first_seen_after_run sid (rqs : list FontRequest) st :
  first_seen (session_of (serve_all rqs st) sid) =
  default 0
    (head (filter (fun t => t <> 0)
             (first_seen (session_of st sid)
              :: map rq_now (filter (fun rq => rq_session_id rq = sid) rqs)))).
Proof.
  revert st. induction rqs as [|rq rqs IH]; intros st.
  - change (serve_all [] st) with st. rewrite filter_nil. simpl map.
    destruct (decide (first_seen (session_of st sid) = 0)) as [Hz | Hnz].
    + by rewrite filter_cons_False, filter_nil by (by intros ?).
    + by rewrite filter_cons_True.
  - rewrite serve_all_cons, IH.
    destruct (decide (rq_session_id rq = sid)) as [<- | Hne].
    + rewrite (filter_cons_True (fun rq' => rq_session_id rq' = _)) by done.
      rewrite session_of_serve_same. simpl.
      destruct (first_seen (session_of st (rq_session_id rq)) =? 0) eqn:Hz.
      * apply Z.eqb_eq in Hz. rewrite Hz.
        by rewrite (filter_cons_False _ 0) by (by intros ?).
      * apply Z.eqb_neq in Hz. by do 2 (rewrite filter_cons_True by done).
    + rewrite (filter_cons_False (fun rq' => rq_session_id rq' = _)) by done.
      by rewrite session_of_serve_other.
Qed.

(** X3. [first_seen] is written once: after any run it is the first
    non-zero value among the session's earlier [first_seen] and the clock
    readings of its requests in arrival order (a reading of exactly 0 does
    not stick), so a non-zero [first_seen] never changes again. *)
Theorem first_seen_is_first_nonzero_reading sid (rqs : list FontRequest) st :
  let f0 := first_seen (session_of st sid) in
  let ts := map rq_now (filter (fun rq => rq_session_id rq = sid) rqs) in
  first_seen (session_of (serve_all rqs st) sid) =
  default 0 (head (filter (fun t => t <> 0) (f0 :: ts)))
  /\ (f0 <> 0 -> first_seen (session_of (serve_all rqs st) sid) = f0).
Proof.
  intros f0 ts. split; [apply first_seen_after_run|].
  intros Hnz. rewrite first_seen_after_run. fold f0.
  by rewrite filter_cons_True.
Qed.

Lemma sessions_serve_other rq st sid :
  sid <> rq_session_id rq ->
  sessions (serve_tracked_font rq st) !! sid = sessions st !! sid.
Proof. intros Hne. simpl. by rewrite lookup_insert_ne. Qed.

(** X4. Requests touch no session but their own: a session that none of
    the requests of a run names is left exactly as it was, and is not
    created if it did not exist. *)
Theorem run_leaves_other_sessions_alone (rqs : list FontRequest) st sid :
  (forall rq, rq ∈ rqs -> rq_session_id rq <> sid) ->
  sessions (serve_all rqs st) !! sid = sessions st !! sid.
Proof.
  revert st. induction rqs as [|rq rqs IH]; intros st Hrqs; [done|].
  rewrite serve_all_cons, IH.
  - apply sessions_serve_other. intros ->. by apply (Hrqs rq); [left|].
  - intros rq' Hin. apply Hrqs. by right.
Qed.

Lemma dom_sessions_serve rq st :
  dom (sessions (serve_tracked_font rq st)) =
  {[rq_session_id rq]} ∪ dom (sessions st).
Proof. simpl. apply dom_insert_L. Qed.

Lemma sessions_nonempty_step rq st :
  (forall sid s, sessions st !! sid = Some s -> codepoints s <> ∅) ->
  forall sid s, sessions (serve_tracked_font rq st) !! sid = Some s ->
                codepoints s <> ∅.
Proof.
  intros Hinv sid s. simpl.
  destruct (decide (rq_session_id rq = sid)) as [<- | Hne].
  - rewrite lookup_insert_eq. intros [= <-]. simpl. apply insert_non_empty.
  - rewrite lookup_insert_ne by done. apply Hinv.
Qed.

Lemma sessions_nonempty_after_run (rqs : list FontRequest) st :
  (forall sid s, sessions st !! sid = Some s -> codepoints s <> ∅) ->
  forall sid s, sessions (serve_all rqs st) !! sid = Some s ->
                codepoints s <> ∅.
Proof.
  revert st. induction rqs as [|rq rqs IH]; intros st Hinv; [done|].
  rewrite serve_all_cons. by apply IH, sessions_nonempty_step.
Qed.

Lemma dom_sessions_after_run (rqs : list FontRequest) st :
  dom (sessions (serve_all rqs st)) =
  dom (sessions st) ∪ list_to_set (map rq_session_id rqs).
Proof.
  revert st. induction rqs as [|rq rqs IH]; intros st.
  - simpl. by rewrite (right_id_L ∅ (∪)).
  - rewrite serve_all_cons, IH, dom_sessions_serve. simpl map.
    rewrite list_to_set_cons, !(assoc_L (∪)).
    by rewrite (comm_L (∪) (dom (sessions st))).
Qed.

(** X5. After any run from the empty tables, the table holds exactly the
    sessions that some request named, and none of them is empty: each has
    at least one captured codepoint. *)
Theorem sessions_are_the_named_ones (rqs : list FontRequest) :
  let st := serve_all rqs initial_state in
  dom (sessions st) = list_to_set (map rq_session_id rqs)
  /\ forall sid s, sessions st !! sid = Some s -> codepoints s <> ∅.
Proof.
  intros st. subst st. split.
  - rewrite dom_sessions_after_run. simpl.
    by rewrite dom_empty_L, (left_id_L ∅ (∪)).
  - apply sessions_nonempty_after_run. intros sid s. simpl.
    by rewrite lookup_empty.
Qed.

(** X6. Incremental polling: a client that asks for the log from the total
    it was last given receives the entries of the requests served since
    then, in order, cut down to the last 100 of them; nothing is missed as
    long as at most 100 requests arrived between two polls. *)
Theorem api_log_poll_returns_new_entries (rqs : list FontRequest) st :
  let since := Z.of_nat (length (access_log st)) in
  let entries := (api_log since (serve_all rqs st)).1 in
  entries = drop (length rqs - 100) (map log_entry_of rqs)
  /\ ((length rqs <= 100)%nat -> entries = map log_entry_of rqs).
Proof.
  intros since entries.
  assert (Hentries : entries = drop (length rqs - 100) (map log_entry_of rqs)).
  { subst entries since. unfold api_log, slice_from. simpl fst.
    rewrite access_log_after_run.
    destruct (Z.of_nat (length (access_log st)) <? 0) eqn:Hneg;
      [apply Z.ltb_lt in Hneg; lia|].
    rewrite Nat2Z.id, drop_app_length. simpl.
    rewrite length_map. f_equal. lia. }
  split; [done|]. intros Hle. rewrite Hentries.
  by replace (length rqs - 100)%nat with 0%nat by lia.
Qed.

(** X7. A negative [since] counts from the end of the log, as a slice
    does: the entries are the last [min (-since) 100] entries of the log
    (all of it when the log is shorter). *)
Theorem api_log_negative_since (since : Z) st :
  since < 0 ->
  let n := length (access_log st) in
  (api_log since st).1 =
    drop (n - Z.to_nat (Z.min (- since) 100)) (access_log st)
  /\ length (api_log since st).1 = (n `min` Z.to_nat (Z.min (- since) 100))%nat.
Proof.
  intros Hneg n.
  assert (Heq : (api_log since st).1 =
                drop (n - Z.to_nat (Z.min (- since) 100)) (access_log st)).
  { subst n. unfold api_log, slice_from. simpl fst.
    destruct (since <? 0) eqn:Hs; [|lia].
    rewrite drop_drop, length_drop. f_equal. lia. }
  split; [done|]. rewrite Heq, length_drop. lia.
Qed.

End ServerRunFacts.

(** ** The sessions endpoint *)

Section SessionsEndpointFacts.
Import Server ServerApi.
Context {U : UnicodeData}.

Lemma sorted_insert_Permutation x l : sorted_insert x l ≡ₚ x :: l.
Proof.
  induction l as [|y l IH]; simpl; [done|].
  destruct (str_ltb x y); [done|]. rewrite IH. apply Permutation_swap.
Qed.

Lemma sorted_loop_Permutation xs acc :
  fold_left (fun acc x => sorted_insert x acc) xs acc ≡ₚ xs ++ acc.
Proof.
  revert acc. induction xs as [|x xs IH]; intros acc; simpl; [done|].
  rewrite IH, sorted_insert_Permutation. by rewrite Permutation_middle.
Qed.

Lemma sorted_Permutation xs : sorted xs ≡ₚ xs.
Proof. unfold sorted. by rewrite sorted_loop_Permutation, app_nil_r. Qed.

Lemma insert_by_key_desc_Permutation {A} (key : A -> Z) x l :
  insert_by_key_desc key x l ≡ₚ x :: l.
Proof.
  induction l as [|y l IH]; simpl; [done|].
  destruct (key x <? key y); [|done]. rewrite IH. apply Permutation_swap.
Qed.

Lemma sort_by_key_desc_Permutation {A} (key : A -> Z) l :
  sort_by_key_desc key l ≡ₚ l.
Proof.
  induction l as [|x l IH]; simpl; [done|].
  by rewrite insert_by_key_desc_Permutation, IH.
Qed.

Lemma insert_by_key_desc_sorted {A} (key : A -> Z) x l :
  StronglySorted (fun a b => key b <= key a) l ->
  StronglySorted (fun a b => key b <= key a) (insert_by_key_desc key x l).
Proof.
  induction 1 as [|y l Hs IH Hy]; simpl.
  - repeat constructor.
  - destruct (key x <? key y) eqn:Hlt.
    + apply Z.ltb_lt in Hlt. constructor; [done|].
      rewrite insert_by_key_desc_Permutation. constructor; [lia | done].
    + apply Z.ltb_ge in Hlt. constructor; [by constructor|].
      constructor; [done|].
      eapply Forall_impl; [exact Hy|]. simpl. intros; lia.
Qed.

Lemma sort_by_key_desc_sorted {A} (key : A -> Z) l :
  StronglySorted (fun a b => key b <= key a) (sort_by_key_desc key l).
Proof.
  induction l as [|x l IH]; simpl; [constructor|].
  by apply insert_by_key_desc_sorted.
Qed.

(** The rows the loop collects: one per session that has codepoints. *)
Lemma api_sessions_loop_acc (items : list (pystr * Session))
    (result : list SessionRow) (ips : gset (list Z)) (total : nat) :
  let rows := map (fun kv => session_row kv.1 kv.2)
                  (filter (fun kv => codepoints kv.2 <> ∅) items) in
  fold_left
    (fun '(result, unique_ips, total_chars) '(sid, data) =>
       if bool_decide (codepoints data = ∅)
       then (result, unique_ips, total_chars)
       else
         let row := session_row sid data in
         (result ++ [row], {[ip data]} ∪ unique_ips,
          (total_chars + r_char_count row)%nat))
    items (result, ips, total) =
  (result ++ rows, list_to_set (map r_ip rows) ∪ ips,
   (total + sum_list (map r_char_count rows))%nat).
Proof.
  revert result ips total.
  induction items as [|[sid data] items IH]; intros result ips total;
    cbn [fold_left].
  - rewrite filter_nil. cbn [map sum_list sum_list_with list_to_set].
    rewrite app_nil_r, (left_id_L ∅ (∪)). f_equal. lia.
  - case_bool_decide as Hempty.
    + rewrite filter_cons_False by (by intros ?). apply IH.
    + rewrite filter_cons_True by done. rewrite IH.
      cbn [map fst snd sum_list sum_list_with list_to_set].
      change (r_ip (session_row sid data)) with (ip data).
      rewrite <- app_assoc. f_equal; [f_equal|].
      * apply set_eq. intros x. rewrite !elem_of_union. tauto.
      * unfold id. lia.
Qed.

Lemma api_sessions_eq (items : list (pystr * Session)) log :
  let rows := map (fun kv => session_row kv.1 kv.2)
                  (filter (fun kv => codepoints kv.2 <> ∅) items) in
  api_sessions items log =
  mkSessionsResponse
    (sort_by_key_desc r_last_seen rows)
    (length (sort_by_key_desc r_last_seen rows))
    (sum_list (map r_char_count rows))
    (length log)
    (size (list_to_set (map r_ip rows) : gset (list Z))).
Proof.
  intros rows. unfold api_sessions, api_sessions_loop.
  rewrite api_sessions_loop_acc. fold rows.
  by rewrite app_nil_l, (right_id_L ∅ (∪)).
Qed.

Lemma size_list_to_set_le (l : list pystr) :
  (size (list_to_set l : gset (list Z)) <= length l)%nat.
Proof.
  unfold size, set_size. simpl. apply submseteq_length, NoDup_submseteq.
  - apply NoDup_elements.
  - intros x Hx. by apply elem_of_elements, elem_of_list_to_set in Hx.
Qed.

(** X8. Every row of the sessions response describes a session that has
    codepoints: its codepoint list is the session's keys in strictly
    ascending order, [characters] are their glyphs in the same order,
    [char_count] is their number (at least 1), the user agent is cut to 80
    characters and at most 15 words are inferred. *)
Theorem api_sessions_rows (items : list (pystr * Session)) log r :
  r ∈ rs_sessions (api_sessions items log) ->
  exists sid data,
    (sid, data) ∈ items /\ codepoints data <> ∅
    /\ r_session_id r = sid
    /\ StronglySorted str_le (r_codepoints r) /\ NoDup (r_codepoints r)
    /\ list_to_set (r_codepoints r) = dom (codepoints data)
    /\ r_characters r = map codepoint_to_char (r_codepoints r)
    /\ r_char_count r = size (codepoints data)
    /\ (1 <= r_char_count r)%nat
    /\ r_user_agent r = take 80 (user_agent data)
    /\ (length (r_inferred_words r) <= 15)%nat.
Proof.
  rewrite api_sessions_eq. simpl. rewrite sort_by_key_desc_Permutation.
  intros ([sid data] & -> & [Hne Hin]%list_elem_of_filter)%list_elem_of_fmap.
  exists sid, data. simpl in Hne. simpl.
  assert (Hperm : sorted (map fst (map_to_list (codepoints data)))
                  ≡ₚ map fst (map_to_list (codepoints data)))
    by apply sorted_Permutation.
  assert (Hlen : length (map codepoint_to_char
                   (sorted (map fst (map_to_list (codepoints data))))) =
                 size (codepoints data)).
  { by rewrite length_map, Hperm, length_map, length_map_to_list. }
  split; [done|]. split; [done|]. split; [done|].
  split; [apply sorted_is_sorted|].
  split; [rewrite Hperm; apply NoDup_fst_map_to_list|].
  split.
  { apply set_eq. intros x.
    rewrite elem_of_list_to_set, elem_of_sorted, elem_of_dom.
    rewrite list_elem_of_fmap. split.
    - intros ([k v] & -> & Hkv). apply elem_of_map_to_list in Hkv. by exists v.
    - intros [v Hv]. exists (x, v). split; [done|].
      by apply elem_of_map_to_list. }
  split; [done|]. split; [done|].
  split; [rewrite Hlen; apply map_size_non_empty_iff in Hne; lia|].
  split; [done|].
  unfold infer_words. rewrite length_take. lia.
Qed.

(** X9. The counters of the sessions response: [session_count] is the
    number of rows, one per session that has codepoints; the rows come
    most recently seen first; [total_chars] is the sum of their
    [char_count]; [unique_ips] counts the distinct addresses of the rows,
    so it never exceeds [session_count]; [total_requests] is the length of
    the log. *)
Theorem api_sessions_counters (items : list (pystr * Session)) log :
  let resp := api_sessions items log in
  rs_sessions resp ≡ₚ
    map (fun kv => session_row kv.1 kv.2)
        (filter (fun kv => codepoints kv.2 <> ∅) items)
  /\ StronglySorted (fun a b => r_last_seen b <= r_last_seen a)
                    (rs_sessions resp)
  /\ rs_session_count resp = length (rs_sessions resp)
  /\ rs_total_chars resp = sum_list (map r_char_count (rs_sessions resp))
  /\ rs_unique_ips resp =
     size (list_to_set (map r_ip (rs_sessions resp)) : gset (list Z))
  /\ (rs_unique_ips resp <= rs_session_count resp)%nat
  /\ rs_total_requests resp = length log.
Proof.
  intros resp. subst resp. rewrite api_sessions_eq. simpl.
  set (rows := map _ _).
  assert (Hperm : sort_by_key_desc r_last_seen rows ≡ₚ rows)
    by apply sort_by_key_desc_Permutation.
  assert (Hips : (list_to_set (map r_ip (sort_by_key_desc r_last_seen rows))
                  : gset (list Z)) = list_to_set (map r_ip rows)).
  { apply set_eq. intros x. by rewrite !elem_of_list_to_set, Hperm. }
  split; [done|]. split; [apply sort_by_key_desc_sorted|].
  split; [done|]. split; [by rewrite Hperm|]. split; [by rewrite Hips|].
  split; [|done].
  rewrite Hperm, <- (length_map r_ip). apply size_list_to_set_le.
Qed.

Lemma filter_all {A} (P : A -> Prop) `{!forall x, Decision (P x)} (l : list A) :
  Forall P l -> filter P l = l.
Proof.
  induction 1 as [|x l Hx Hl IH]; [done|].
  by rewrite filter_cons_True, IH.
Qed.

Lemma sorted_keys_dom (m : gmap (list Z) timestamp) :
  list_to_set (sorted (map fst (map_to_list m))) = dom m.
Proof.
  apply set_eq. intros x.
  rewrite elem_of_list_to_set, elem_of_sorted, elem_of_dom, list_elem_of_fmap.
  split.
  - intros ([k v] & -> & Hkv). apply elem_of_map_to_list in Hkv. by exists v.
  - intros [v Hv]. exists (x, v). split; [done|]. by apply elem_of_map_to_list.
Qed.

(** X10. The sessions response over the live tables: after any run from
    the empty tables every session of the table has a row (no session is
    skipped as empty), so [session_count] is the size of the table;
    [total_requests] is the number of requests served; and the row of a
    session lists exactly its captured codepoints and its [last_seen]. *)
Theorem api_sessions_reflects_store
    (rqs : list FontRequest) (items : list (pystr * Session)) :
  let st := serve_all rqs initial_state in
  items ≡ₚ map_to_list (sessions st) ->
  let resp := api_sessions items (access_log st) in
  rs_session_count resp = size (sessions st)
  /\ rs_total_requests resp = length rqs
  /\ forall sid, sid ∈ dom (sessions st) ->
       exists r, r ∈ rs_sessions resp /\ r_session_id r = sid
                 /\ list_to_set (r_codepoints r) = captured st sid
                 /\ r_last_seen r = last_seen (session_of st sid).
Proof.
  intros st Hitems resp. subst resp. rewrite api_sessions_eq. simpl.
  assert (Hnonempty : forall sid s, sessions st !! sid = Some s ->
                                    codepoints s <> ∅).
  { apply sessions_nonempty_after_run. intros sid s. simpl.
    by rewrite lookup_empty. }
  assert (Hall : filter (fun kv : pystr * Session => codepoints kv.2 <> ∅) items
                 = items).
  { apply filter_all, Forall_forall. intros [sid s] Hin. simpl.
    rewrite Hitems in Hin. apply elem_of_map_to_list in Hin.
    by eapply Hnonempty. }
  rewrite Hall. split; [|split].
  - rewrite sort_by_key_desc_Permutation, length_map, Hitems.
    apply length_map_to_list.
  - subst st. rewrite access_log_after_run. simpl. by rewrite length_map.
  - intros sid [s Hs]%elem_of_dom.
    exists (session_row sid s). split; [|split; [done|split]].
    + rewrite sort_by_key_desc_Permutation. apply list_elem_of_fmap.
      exists (sid, s). split; [done|]. rewrite Hitems.
      by apply elem_of_map_to_list.
    + simpl. unfold captured, session_of. rewrite Hs. simpl.
      apply sorted_keys_dom.
    + simpl. unfold session_of. by rewrite Hs.
Qed.

End SessionsEndpointFacts.

(** ** The style sheet and the registry *)

Section StyleSheetFacts.
Import Server ServerApi Fonts.
Context {U : UnicodeData}.

Lemma elem_of_sorted_int_insert x y l :
  y ∈ sorted_int_insert x l <-> y = x \/ y ∈ l.
Proof.
  induction l as [|z l IH]; simpl.
  - rewrite list_elem_of_singleton, elem_of_nil. tauto.
  - destruct (x <? z).
    + rewrite !elem_of_cons. tauto.
    + rewrite !elem_of_cons, IH. tauto.
Qed.

Lemma elem_of_sorted_int y xs : y ∈ sorted_int xs <-> y ∈ xs.
Proof.
  unfold sorted_int.
  assert (Hgen : forall acc,
             y ∈ fold_left (fun acc x => sorted_int_insert x acc) xs acc <->
             y ∈ acc \/ y ∈ xs).
  { induction xs as [|x xs IH]; intros acc; simpl.
    - rewrite elem_of_nil. tauto.
    - rewrite IH, elem_of_sorted_int_insert, elem_of_cons. tauto. }
  rewrite Hgen, elem_of_nil. tauto.
Qed.

Lemma characters_are_mapped cp name :
  (cp, name) ∈ CHARACTERS ->
  upper (format_04X cp) = format_04X cp
  /\ codepoint_to_char (format_04X cp) = [cp]
  /\ cp ∈ mapped_codepoints.
Proof.
  intros Hin.
  assert (Hall : forallb
            (fun kv : Z * pystr =>
               bool_decide (upper (format_04X kv.1) = format_04X kv.1)
               && bool_decide (kv.1 ∈ mapped_codepoints))
            CHARACTERS = true) by (vm_compute; reflexivity).
  rewrite forallb_forall in Hall.
  apply list_elem_of_In, Hall in Hin. simpl in Hin.
  apply andb_true_iff in Hin as [Hup Hmapped].
  apply bool_decide_eq_true in Hup, Hmapped.
  split; [done|]. split; [|done].
  unfold codepoint_to_char. by rewrite Hup, (CHAR_MAP_glyph _ Hmapped).
Qed.

(** X11. Every character of the font table is known to the registry: for
    each entry of [CHARACTERS] and each session, the style sheet has the
    rule whose URL carries the session id and the entry's four-digit code,
    and a request for that code is logged and captured under the very same
    code, with the entry's character as its glyph. *)
Theorem style_sheet_urls_resolve (session_id : pystr) cp name rq :
  (cp, name) ∈ CHARACTERS ->
  rq_session_id rq = session_id ->
  rq_codepoint rq = format_04X cp ->
  src_line session_id (format_04X cp) ∈ session_css_rules session_id
  /\ e_codepoint (log_entry_of rq) = format_04X cp
  /\ e_character (log_entry_of rq) = [cp]
  /\ forall st, format_04X cp ∈ captured (serve_tracked_font rq st) session_id.
Proof.
  intros Hin Hsid Hcp.
  destruct (characters_are_mapped cp name Hin) as (Hup & Hglyph & _).
  split; [|split; [|split]].
  - unfold session_css_rules. apply elem_of_app. right.
    apply list_elem_of_In, in_flat_map. exists cp. split.
    + apply list_elem_of_In, elem_of_sorted_int, list_elem_of_fmap.
      by exists (cp, name).
    + apply list_elem_of_In. unfold font_face_rule. do 2 right. left.
  - simpl. by rewrite Hcp.
  - simpl. by rewrite Hcp, Hup.
  - intros st. subst session_id. rewrite captured_serve_same, Hcp, Hup.
    apply elem_of_union. left. by apply elem_of_singleton.
Qed.

End StyleSheetFacts.

(** ** More on the registry *)

Section RegistryInjectivity.
Context {U : UnicodeData}.

Lemma codepoint_to_char_cases (hex_cp : pystr) :
  (exists cp, cp ∈ mapped_codepoints /\ upper hex_cp = format_04X cp
              /\ codepoint_to_char hex_cp = [cp])
  \/ (CHAR_MAP !! upper hex_cp = None
      /\ codepoint_to_char hex_cp = lit "U+" ++ hex_cp).
Proof.
  unfold codepoint_to_char.
  destruct (CHAR_MAP !! upper hex_cp) as [g|] eqn:Hk; [left | by right].
  destruct (CHAR_MAP_keys _ _ Hk) as (cp & Hin & Heq).
  exists cp. split; [done|]. split; [done|].
  rewrite Heq, (CHAR_MAP_glyph _ Hin) in Hk. by injection Hk as <-.
Qed.

(** X12. The display string identifies the code up to letter case: two hex
    strings with the same display have the same uppercase form, and two
    unmapped ones are then the very same string (the placeholder keeps the
    input as it was written); a glyph is one character long and a
    placeholder at least two, so the two kinds never collide. *)
Theorem codepoint_to_char_injective_up_to_case (s t : pystr) :
  codepoint_to_char s = codepoint_to_char t ->
  upper s = upper t
  /\ (CHAR_MAP !! upper s = None -> s = t)
  /\ (length (codepoint_to_char s) = 1%nat <-> is_Some (CHAR_MAP !! upper s)).
Proof.
  intros Heq.
  destruct (codepoint_to_char_cases s) as [(cp & Hin & Hup & Hs) | [Hno Hs]];
    destruct (codepoint_to_char_cases t) as [(cp' & Hin' & Hup' & Ht) | [Hno' Ht]];
    rewrite Hs, Ht in Heq.
  - injection Heq as <-. split; [congruence|]. split.
    + rewrite Hup, (CHAR_MAP_glyph _ Hin). done.
    + rewrite Hs, Hup, (CHAR_MAP_glyph _ Hin). by split; [eexists|].
  - discriminate Heq.
  - discriminate Heq.
  - apply app_inv_head in Heq as <-. split; [done|]. split; [done|].
    rewrite Hs, Hno. simpl. split; [intros [=] | by intros [? ?]].
Qed.

End RegistryInjectivity.

(** ** More on word inference *)

Section InferenceShape.
Import Reconstruct.
Context {U : UnicodeData}.

Lemma dict_set_keys_old {V} (k : pystr) (v : V) d :
  k ∈ map fst d -> map fst (dict_set str_eqb k v d) = map fst d.
Proof.
  induction d as [|[k' v'] d IH]; simpl; [by intros ?%elem_of_nil|].
  destruct (str_eqb k' k) eqn:Hk; [done|]. simpl.
  intros [-> | Hin]%elem_of_cons.
  - by rewrite (proj2 (str_eqb_eq k' k')) in Hk.
  - by rewrite IH.
Qed.

Lemma dict_set_keys_new {V} (k : pystr) (v : V) d :
  k ∉ map fst d -> map fst (dict_set str_eqb k v d) = map fst d ++ [k].
Proof.
  induction d as [|[k' v'] d IH]; simpl; [done|].
  intros Hnin. apply not_elem_of_cons in Hnin as [Hne Hnin].
  destruct (str_eqb k' k) eqn:Hk.
  - apply str_eqb_eq in Hk. congruence.
  - simpl. by rewrite IH.
Qed.

Lemma infer_loop_keys cs (categories : list pystr) acc :
  NoDup (map fst acc) ->
  NoDup (map fst
           (fold_left
              (fun results c => dict_set str_eqb c (possible_words cs c) results)
              categories acc))
  /\ forall c,
       c ∈ map fst
             (fold_left
                (fun results c => dict_set str_eqb c (possible_words cs c) results)
                categories acc)
       <-> c ∈ map fst acc \/ c ∈ categories.
Proof.
  revert acc. induction categories as [|c0 cats IH]; intros acc Hnd;
    cbn [fold_left].
  - split; [done|]. intros c. rewrite elem_of_nil. tauto.
  - destruct (decide (c0 ∈ map fst acc)) as [Hin | Hnin].
    + destruct (IH (dict_set str_eqb c0 (possible_words cs c0) acc)) as [H1 H2].
      { by rewrite dict_set_keys_old. }
      split; [done|]. intros c. rewrite H2, dict_set_keys_old, elem_of_cons by done.
      split; [tauto|]. intros [? | [-> | ?]]; tauto.
    + destruct (IH (dict_set str_eqb c0 (possible_words cs c0) acc)) as [H1 H2].
      { rewrite dict_set_keys_new by done. apply NoDup_app.
        split; [done|]. split; [|apply NoDup_singleton].
        intros x Hx ->%list_elem_of_singleton. done. }
      split; [done|]. intros c.
      rewrite H2, dict_set_keys_new, elem_of_app, list_elem_of_singleton,
        elem_of_cons by done. tauto.
Qed.

Lemma infer_loop_keys_fresh cs (categories : list pystr) acc :
  NoDup categories ->
  (forall c, c ∈ categories -> c ∉ map fst acc) ->
  map fst
    (fold_left
       (fun results c => dict_set str_eqb c (possible_words cs c) results)
       categories acc) = map fst acc ++ categories.
Proof.
  revert acc. induction categories as [|c0 cats IH]; intros acc Hnd Hfresh;
    cbn [fold_left].
  - by rewrite app_nil_r.
  - apply NoDup_cons in Hnd as [Hc0 Hnd]. rewrite IH.
    + rewrite dict_set_keys_new by (apply Hfresh; left).
      by rewrite <- app_assoc.
    + done.
    + intros c Hc. rewrite dict_set_keys_new by (apply Hfresh; left).
      rewrite elem_of_app, list_elem_of_singleton.
      intros [Hin | ->]; [|done]. by apply (Hfresh c); [right|].
Qed.

Lemma words_of_unknown category :
  category ∉ map fst WORD_LISTS -> words_of category = [].
Proof.
  intros Hnin. unfold words_of.
  destruct (dict_get str_eqb category WORD_LISTS) as [ws|] eqn:Hget; [|done].
  apply dict_get_elem_of in Hget. destruct Hnin.
  apply list_elem_of_fmap. by exists (category, ws).
Qed.

(** X13. The result of [infer_words] has one entry per requested category,
    whatever the repetitions in the request; a category that [WORD_LISTS]
    does not know is answered with the empty list rather than an error;
    without a request the entries are the categories of [WORD_LISTS] in
    their order. *)
Theorem infer_words_categories (cs : gset (list Z)) (categories : list pystr) :
  NoDup (map fst (infer_words cs (Some categories)))
  /\ (forall c, c ∈ map fst (infer_words cs (Some categories)) <->
                c ∈ categories)
  /\ (forall c, c ∈ categories -> c ∉ map fst WORD_LISTS ->
                dict_get str_eqb c (infer_words cs (Some categories)) = Some [])
  /\ map fst (infer_words cs None) = map fst WORD_LISTS.
Proof.
  unfold infer_words. simpl default.
  destruct (infer_loop_keys cs categories []) as [Hnd Hkeys];
    [apply NoDup_nil_2|].
  split; [done|]. split; [|split].
  - intros c. rewrite Hkeys. simpl. rewrite elem_of_nil. tauto.
  - intros c Hin Hunknown. rewrite infer_loop_get, decide_True by done.
    unfold possible_words. by rewrite words_of_unknown.
  - rewrite infer_loop_keys_fresh; [done | | ].
    + apply (bool_decide_unpack _). vm_compute. exact I.
    + intros c _. simpl. apply not_elem_of_nil.
Qed.

Lemma word_lists_plain_nonempty category : [] ∉ words_of category.
Proof.
  unfold words_of. intros Hw.
  destruct (dict_get str_eqb category WORD_LISTS) as [ws|] eqn:Hget;
    simpl in Hw; [|by apply elem_of_nil in Hw].
  apply dict_get_elem_of in Hget.
  assert (Hall : forallb
            (fun kv : pystr * list pystr =>
               forallb (fun w => negb (Nat.eqb (length w) 0)) kv.2)
            WORD_LISTS = true) by (vm_compute; reflexivity).
  rewrite forallb_forall in Hall.
  apply list_elem_of_In, Hall in Hget. simpl in Hget.
  rewrite forallb_forall in Hget. by apply list_elem_of_In, Hget in Hw.
Qed.

Lemma bfilter_none {A} (f : A -> bool) (l : list A) :
  (forall x, x ∈ l -> f x = false) -> List.filter f l = [].
Proof.
  induction l as [|x l IH]; intros Hf; [done|]. simpl.
  rewrite (Hf x) by left. apply IH. intros y Hy. apply Hf. by right.
Qed.

Lemma spellable_empty (w : pystr) : w <> [] -> spellable ∅ w = false.
Proof. destruct w as [|c w]; [done|]. intros _. reflexivity. Qed.

(** X14. Nothing is inferred from the empty character set: every
    category's list is empty, the collector's list is empty, and the
    reconstruction report prints no line of inferred words. *)
Theorem nothing_inferred_from_empty_set :
  (forall category, possible_words ∅ category = [])
  /\ Server.infer_words ∅ = []
  /\ printed_inferred_words [] = [].
Proof.
  assert (Hrec : forall category, possible_words ∅ category = []).
  { intros category. unfold possible_words. rewrite set_map_empty.
    rewrite bfilter_none; [done|]. intros w Hw. apply spellable_empty.
    intros ->. by apply word_lists_plain_nonempty in Hw. }
  split; [done|]. split.
  - unfold Server.infer_words. rewrite set_map_empty.
    rewrite bfilter_none; [done|]. intros w Hw.
    assert (Hall : forallb (fun w => negb (Nat.eqb (length w) 0))
                     Server.COMMON_WORDS = true) by (vm_compute; reflexivity).
    rewrite forallb_forall in Hall. apply list_elem_of_In, Hall in Hw.
    by destruct w.
  - unfold printed_inferred_words.
    apply elem_of_nil_inv. intros [c top] Hin.
    apply list_elem_of_omap in Hin as ([c' ws] & Hin & Hsome).
    unfold infer_words in Hin.
    apply infer_loop_elem_of in Hin as [Hin | ->]; [by apply elem_of_nil in Hin|].
    simpl in Hsome. by rewrite Hrec in Hsome.
Qed.

End InferenceShape.

(** ** The report of the reconstruction tool *)

Section ReportFacts.
Import Reconstruct.
Context {U : UnicodeData}.

(** X15. The inferred-words block of the report: the categories come in
    the order of [WORD_LISTS], each at most once; a category has a line
    exactly when something was inferred for it; and a line never shows
    more than 10 words nor none. *)
Theorem printed_inferred_words_shape (chars : list pystr) :
  let printed := printed_inferred_words chars in
  map fst printed `sublist_of` map fst WORD_LISTS
  /\ (forall category,
        category ∈ map fst printed <->
        category ∈ map fst WORD_LISTS
        /\ possible_words (list_to_set chars) category <> [])
  /\ (forall category top,
        (category, top) ∈ printed ->
        top <> [] /\ (length top <= 10)%nat).
Proof.
  intros printed. subst printed. unfold printed_inferred_words.
  rewrite infer_words_default. apply printed_shape_aux.
Qed.

(** X16. The pattern detectors are independent and reported in a fixed
    order: the list of patterns is a sublist of CURRENCY_AMOUNT,
    MIXED_CASE, FINNISH_IBAN, EMAIL_ADDRESS; the first is there exactly
    when the currency and digit flags are both set, the second exactly
    when the upper and lower flags are both set, the last exactly when
    the at sign is in the collection. *)
Theorem patterns_are_independent (chars : list pystr) :
  let a := analyze_character_set chars in
  patterns a `sublist_of`
    [CURRENCY_AMOUNT; MIXED_CASE; FINNISH_IBAN; EMAIL_ADDRESS]
  /\ (CURRENCY_AMOUNT ∈ patterns a <->
      has_currency a = true /\ has_digits a = true)
  /\ (MIXED_CASE ∈ patterns a <->
      has_uppercase a = true /\ has_lowercase a = true)
  /\ (EMAIL_ADDRESS ∈ patterns a <-> lit "@" ∈ chars).
Proof.
  intros a. subst a. unfold analyze_character_set.
  cbn [patterns has_currency has_digits has_uppercase has_lowercase].
  split; [|split; [|split]].
  - repeat match goal with
           | |- context [if ?b then _ else _] => destruct b
           end; simpl;
      repeat first [apply sublist_nil_l | apply sublist_skip
                   | apply sublist_cons].
  - rewrite !elem_of_app, !elem_of_if_singleton. split.
    + intros [[H _] | [[_ H] | [[_ H] | [_ H]]]];
        [by apply andb_true_iff in H | by vm_compute in H
        | by vm_compute in H | by vm_compute in H].
    + intros H. left. split; [by apply andb_true_iff | done].
  - rewrite !elem_of_app, !elem_of_if_singleton. split.
    + intros [[_ H] | [[H _] | [[_ H] | [_ H]]]];
        [by vm_compute in H | by apply andb_true_iff in H
        | by vm_compute in H | by vm_compute in H].
    + intros H. right. left. split; [by apply andb_true_iff | done].
  - rewrite !elem_of_app, !elem_of_if_singleton. split.
    + intros [[_ H] | [[_ H] | [[_ H] | [H _]]]];
        [by vm_compute in H | by vm_compute in H | by vm_compute in H |].
      by apply bool_decide_eq_true in H.
    + intros H. do 3 right. split; [|done]. by apply bool_decide_eq_true.
Qed.

End ReportFacts.

(** ** More on the character-set analysis *)

Section AnalysisShape.
Import Reconstruct.
Context {U : UnicodeData}.

Lemma str_le_antisym a b : str_le a b -> str_le b a -> a = b.
Proof.
  unfold str_le. revert b.
  induction a as [|x a IH]; intros [|y b]; simpl; try done.
  intros Hba Hab.
  apply orb_false_iff in Hba as [Hyx Hba].
  apply orb_false_iff in Hab as [Hxy Hab].
  apply Z.ltb_ge in Hyx, Hxy. assert (x = y) as -> by lia.
  rewrite Z.eqb_refl in Hba, Hab. simpl in *. f_equal. by apply IH.
Qed.

Lemma sorted_lists_unique (l1 l2 : list pystr) :
  StronglySorted str_le l1 -> StronglySorted str_le l2 ->
  l1 ≡ₚ l2 -> l1 = l2.
Proof.
  intros Hs1. revert l2.
  induction Hs1 as [|x l1 Hs1 IH Hx]; intros l2 Hs2 Hp.
  - by apply Permutation_nil_l in Hp.
  - destruct Hs2 as [|y l2 Hs2 Hy].
    + by apply Permutation_nil_r in Hp.
    + assert (x = y) as ->.
      { assert (Hxin : x ∈ y :: l2) by (rewrite <- Hp; left).
        assert (Hyin : y ∈ x :: l1) by (rewrite Hp; left).
        apply elem_of_cons in Hxin as [-> | Hxin]; [done|].
        apply elem_of_cons in Hyin as [-> | Hyin]; [done|].
        apply str_le_antisym.
        - by eapply Forall_forall in Hx.
        - by eapply Forall_forall in Hy. }
      f_equal. apply IH; [done|]. by apply Permutation_cons_inv in Hp.
Qed.

Lemma bfilter_Permutation {A} (f : A -> bool) (l l' : list A) :
  l ≡ₚ l' -> List.filter f l ≡ₚ List.filter f l'.
Proof.
  induction 1 as [|x l l' Hp IH|x y l|l l' l'' Hp1 IH1 Hp2 IH2]; simpl.
  - done.
  - destruct (f x); [by constructor | done].
  - destruct (f x), (f y); try done. apply Permutation_swap.
  - by etrans.
Qed.

Lemma existsb_Permutation {A} (f : A -> bool) (l l' : list A) :
  l ≡ₚ l' -> existsb f l = existsb f l'.
Proof.
  intros Hp. apply eq_true_iff_eq. rewrite !existsb_elem_of.
  split; intros (x & Hx & Hf); exists x; (split; [|done]);
    [by rewrite <- Hp | by rewrite Hp].
Qed.

Lemma sorted_selection_Permutation (f : pystr -> bool) (l l' : list pystr) :
  l ≡ₚ l' -> sorted (List.filter f l) = sorted (List.filter f l').
Proof.
  intros Hp. apply sorted_lists_unique; try apply sorted_is_sorted.
  rewrite !sorted_Permutation. by apply bfilter_Permutation.
Qed.

(** X17. The analysis does not depend on the order in which the
    characters are listed: two collections that are permutations of each
    other get the same analysis, field by field. *)
Theorem analysis_ignores_order (chars chars' : list pystr) :
  chars ≡ₚ chars' ->
  analyze_character_set chars = analyze_character_set chars'.
Proof.
  intros Hp. unfold analyze_character_set.
  rewrite (existsb_Permutation isdigit _ _ Hp),
    (existsb_Permutation isupper _ _ Hp),
    (existsb_Permutation islower _ _ Hp),
    (list_to_set_perm_L (C := gset (list Z)) _ _ Hp),
    (sorted_selection_Permutation isdigit _ _ Hp),
    (sorted_selection_Permutation isupper _ _ Hp),
    (sorted_selection_Permutation islower _ _ Hp),
    (sorted_selection_Permutation
       (fun c => negb (isalnum c) && negb (str_eqb c (lit " "))) _ _ Hp),
    (Permutation_length Hp),
    (bool_decide_ext (lit "@" ∈ chars) (lit "@" ∈ chars')); [done|].
  by rewrite Hp.
Qed.

Lemma ascii_character_class x :
  is_ascii x = true -> x <> 32 ->
  (isdigit [x] = true /\ isupper [x] = false /\ islower [x] = false
   /\ negb (isalnum [x]) && negb (str_eqb [x] (lit " ")) = false)
  \/ (isdigit [x] = false /\ isupper [x] = true /\ islower [x] = false
      /\ negb (isalnum [x]) && negb (str_eqb [x] (lit " ")) = false)
  \/ (isdigit [x] = false /\ isupper [x] = false /\ islower [x] = true
      /\ negb (isalnum [x]) && negb (str_eqb [x] (lit " ")) = false)
  \/ (isdigit [x] = false /\ isupper [x] = false /\ islower [x] = false
      /\ negb (isalnum [x]) && negb (str_eqb [x] (lit " ")) = true).
Proof.
  intros Hascii Hsp.
  unfold isdigit, isupper, islower, isalnum, cp_isalnum, cp_isalpha,
    cp_isdecimal, cp_isnumeric, cp_isdigit, cp_isupper, cp_islower,
    cp_istitle. simpl. rewrite Hascii.
  change (Z.of_nat (nat_of_ascii " ")) with 32.
  unfold ascii_isdigit, ascii_isupper, ascii_islower.
  destruct (48 <=? x) eqn:H1, (x <=? 57) eqn:H2, (65 <=? x) eqn:H3,
    (x <=? 90) eqn:H4, (97 <=? x) eqn:H5, (x <=? 122) eqn:H6,
    (x =? 32) eqn:H7; simpl; try tauto; lia.
Qed.

(** X18. Over single ASCII characters the four lists classify: every
    element other than the space is in exactly one of [digits],
    [uppercase], [lowercase] and [special]. *)
Theorem ascii_character_in_exactly_one_list (chars : list pystr) x :
  [x] ∈ chars -> is_ascii x = true -> x <> 32 ->
  let a := analyze_character_set chars in
  (([x] ∈ digits a) /\ ([x] ∉ uppercase a) /\ ([x] ∉ lowercase a) /\ ([x] ∉ special a))
  \/ (([x] ∉ digits a) /\ ([x] ∈ uppercase a) /\ ([x] ∉ lowercase a) /\ ([x] ∉ special a))
  \/ (([x] ∉ digits a) /\ ([x] ∉ uppercase a) /\ ([x] ∈ lowercase a) /\ ([x] ∉ special a))
  \/ (([x] ∉ digits a) /\ ([x] ∉ uppercase a) /\ ([x] ∉ lowercase a) /\ ([x] ∈ special a)).
Proof.
  intros Hin Hascii Hsp a. subst a. unfold analyze_character_set.
  cbn [digits uppercase lowercase special].
  rewrite !elem_of_sorted, !elem_of_bfilter. cbn beta.
  destruct (ascii_character_class x Hascii Hsp)
    as [(Hd & Hu & Hl & Hs) | [(Hd & Hu & Hl & Hs) | [(Hd & Hu & Hl & Hs)
       | (Hd & Hu & Hl & Hs)]]];
    rewrite Hd, Hu, Hl, Hs;
    [left | right; left | do 2 right; left | do 3 right];
    repeat split; try done; by intros [_ ?].
Qed.

(** X19. The four lists are selections from the input, repetitions
    included: each is a permutation of the elements of the collection that
    pass its test; the digit, upper and lower flags say exactly that the
    corresponding list is not empty; and [total_unique] is the length of
    the collection as given. *)
Theorem subsets_are_selections (chars : list pystr) :
  let a := analyze_character_set chars in
  digits a ≡ₚ List.filter isdigit chars
  /\ uppercase a ≡ₚ List.filter isupper chars
  /\ lowercase a ≡ₚ List.filter islower chars
  /\ special a ≡ₚ
     List.filter (fun c => negb (isalnum c) && negb (str_eqb c (lit " "))) chars
  /\ (has_digits a = true <-> digits a <> [])
  /\ (has_uppercase a = true <-> uppercase a <> [])
  /\ (has_lowercase a = true <-> lowercase a <> [])
  /\ total_unique a = length chars.
Proof.
  intros a. subst a. unfold analyze_character_set.
  cbn [digits uppercase lowercase special has_digits has_uppercase
       has_lowercase total_unique].
  assert (Hflag : forall f : pystr -> bool,
             existsb f chars = true <-> sorted (List.filter f chars) <> []).
  { intros f. rewrite existsb_elem_of. split.
    - intros (c & Hc & Hf) Hnil.
      assert (Hin : c ∈ sorted (List.filter f chars))
        by (by apply elem_of_sorted, elem_of_bfilter).
      rewrite Hnil in Hin. by apply elem_of_nil in Hin.
    - intros Hne. destruct (sorted (List.filter f chars)) as [|c l] eqn:Hs;
        [done|].
      assert (Hin : c ∈ sorted (List.filter f chars)) by (rewrite Hs; left).
      apply elem_of_sorted, elem_of_bfilter in Hin. by exists c. }
  repeat split; try apply sorted_Permutation; by apply Hflag.
Qed.

End AnalysisShape.

(** ** More on the replay of a log file *)

Section ReplayShape.
Import Reconstruct.
Context {U : UnicodeData} {J : JsonDecoder}.


Lemma set_add_string (cp : pystr) (cps : list pystr) :
  NoDup cps ->
  exists cps', set_add (PStr cp) (map PStr cps) = map PStr cps'
               /\ NoDup cps' /\ cps' <> [].
Proof.
  intros Hnd. unfold set_add.
  destruct (existsb (key_eqb (PStr cp)) (map PStr cps)) eqn:Hex.
  - exists cps. split; [done|]. split; [done|].
    intros ->. by simpl in Hex.
  - exists (cps ++ [cp]). split; [by rewrite map_app|]. split.
    + apply NoDup_app. split; [done|]. split; [|apply NoDup_singleton].
      intros x Hx ->%list_elem_of_singleton.
      apply not_true_iff_false in Hex. apply Hex, existsb_exists.
      exists (PStr cp). split.
      * apply in_map. by apply list_elem_of_In.
      * simpl. by apply str_eqb_eq.
    + by destruct cps.
Qed.

Lemma dict_get_key_elem_of (k : pyobj) (v : LogSession) d :
  dict_get key_eqb k d = Some v -> exists k', (k', v) ∈ d.
Proof.
  induction d as [|[k' v'] d IH]; simpl; [done|].
  destruct (key_eqb k' k).
  - intros [= ->]. exists k'. left.
  - intros (k'' & Hin)%IH. exists k''. by right.
Qed.

Lemma dict_set_Forall (Q : LogSession -> Prop) (k : pyobj) v d :
  Forall (fun kv => Q kv.2) d -> Q v ->
  Forall (fun kv => Q kv.2) (dict_set key_eqb k v d).
Proof.
  intros Hd Hv. induction Hd as [|[k' v'] d Hkv Hd IH]; simpl.
  - by repeat constructor.
  - destruct (key_eqb k' k); by constructor.
Qed.

Lemma record_entry_well_formed o sessions :
  well_formed_record o ->
  Forall (fun kv => strings_only kv.2) sessions ->
  exists sessions',
    record_entry o sessions = Returned sessions'
    /\ Forall (fun kv => strings_only kv.2) sessions'.
Proof.
  intros Hwf Hinv. destruct o as [| | | | |?|items]; try done.
  destruct Hwf as [Hsid [cp Hcp]]. unfold record_entry.
  rewrite Hsid, Hcp. simpl negb. cbn iota. eexists. split; [done|].
  apply dict_set_Forall; [done|].
  set (sid := entry_get items "session_id" _).
  assert (Hdata : exists cps,
             ls_codepoints (default new_log_session
                              (dict_get key_eqb sid sessions)) = map PStr cps
             /\ NoDup cps).
  { destruct (dict_get key_eqb sid sessions) as [data|] eqn:Hget.
    - apply dict_get_key_elem_of in Hget as [k' Hin].
      rewrite Forall_forall in Hinv.
      destruct (Hinv _ Hin) as (cps & Hcps & Hnd & _). by exists cps.
    - exists []. split; [done | constructor]. }
  destruct Hdata as (cps & Hcps & Hnd).
  destruct (set_add_string cp cps Hnd) as (cps' & Hadd & Hnd' & Hne').
  exists cps'. simpl. by rewrite Hcps, Hadd.
Qed.

Lemma read_lines_well_formed lines sessions :
  (forall line o, line ∈ lines -> strip line <> [] ->
                  json_loads (strip line) = Some o -> well_formed_record o) ->
  (forall line, line ∈ lines -> strip line <> [] ->
                json_loads (strip line) = None ->
                json_raises (strip line) = JSONDecodeError) ->
  Forall (fun kv => strings_only kv.2) sessions ->
  exists sessions',
    read_lines lines sessions = Returned sessions'
    /\ Forall (fun kv => strings_only kv.2) sessions'.
Proof.
  revert sessions. induction lines as [|line lines IH];
    intros sessions Hwf Hexn Hinv; [by exists sessions|].
  assert (Hrest : forall line' o, line' ∈ lines -> strip line' <> [] ->
                    json_loads (strip line') = Some o -> well_formed_record o).
  { intros line' o Hin. apply Hwf. by right. }
  assert (Hrest' : forall line', line' ∈ lines -> strip line' <> [] ->
                     json_loads (strip line') = None ->
                     json_raises (strip line') = JSONDecodeError).
  { intros line' Hin. apply Hexn. by right. }
  cbn [read_lines]. destruct (strip line) as [|c l] eqn:Hs; [by apply IH|].
  destruct (json_loads (c :: l)) as [o|] eqn:Ho.
  - assert (Ho' : well_formed_record o).
    { apply (Hwf line); [left | by rewrite Hs | by rewrite Hs]. }
    destruct (record_entry_well_formed o sessions Ho' Hinv)
      as (s' & -> & Hinv').
    by apply IH.
  - assert (He : json_raises (c :: l) = JSONDecodeError).
    { rewrite <- Hs. apply (Hexn line); [left | by rewrite Hs | by rewrite Hs]. }
    rewrite He. by apply IH.
Qed.

Lemma mapM_as_str (cps : list pystr) : mapM as_str (map PStr cps) = Some cps.
Proof.
  induction cps as [|cp cps IH]; [done|].
  cbn [map]. cbn [mapM]. rewrite IH. done.
Qed.

Lemma build_result_well_formed sessions :
  Forall (fun kv => strings_only kv.2) sessions ->
  exists result,
    build_result sessions = Returned result
    /\ Forall session_data_ok result
    /\ map sd_session_id result = map fst sessions.
Proof.
  induction 1 as [|[sid data] sessions (cps & Hcps & Hnd & Hne) Hrest IH].
  - by exists [].
  - destruct IH as (result & Hres & Hok & Hids). simpl in Hcps.
    cbn [build_result]. rewrite Hcps, mapM_as_str, Hres.
    eexists. split; [done|]. split; [|simpl; by rewrite Hids].
    constructor; [|done]. unfold session_data_ok. simpl.
    split; [apply sorted_is_sorted|].
    split; [by rewrite sorted_Permutation|].
    split; [|by rewrite length_map].
    intros Hnil. apply Hne.
    apply Permutation_nil_r. by rewrite <- Hnil, sorted_Permutation.
Qed.

(** X21. On a log whose decoded lines are all well-formed records (an
    object with a session id that can be a key and a string codepoint,
    either possibly missing) and whose other lines are rejected by the
    decoder with [JSONDecodeError] and nothing else, [parse_log_file]
    returns, and every session of the result lists its codepoints in
    strictly ascending order, at least one of them, with their glyphs in
    the same order and their number as [char_count]. *)
Theorem parse_log_file_well_formed (lines : list pystr) :
  (forall line o, line ∈ lines -> strip line <> [] ->
                  json_loads (strip line) = Some o -> well_formed_record o) ->
  (forall line, line ∈ lines -> strip line <> [] ->
                json_loads (strip line) = None ->
                json_raises (strip line) = JSONDecodeError) ->
  exists result,
    parse_log_file lines = Returned result
    /\ forall r, r ∈ result ->
         StronglySorted str_le (sd_codepoints r) /\ NoDup (sd_codepoints r)
         /\ sd_codepoints r <> []
         /\ sd_characters r = map codepoint_to_char (sd_codepoints r)
         /\ sd_char_count r = length (sd_codepoints r).
Proof.
  intros Hwf Hexn.
  destruct (read_lines_well_formed lines [] Hwf Hexn)
    as (sessions & Hread & Hinv); [constructor|].
  destruct (build_result_well_formed sessions Hinv) as (result & Hres & Hok & _).
  exists result. unfold parse_log_file. rewrite Hread. split; [done|].
  intros r Hr. rewrite Forall_forall in Hok. by apply Hok.
Qed.

(** X22. A record that has none of the three keys is still counted: it
    goes to the session named [unknown], with the empty string as its
    address and as its one codepoint, which is displayed as the bare
    placeholder [U+]. *)
Theorem record_without_keys_uses_defaults (line : pystr) items :
  strip line <> [] ->
  json_loads (strip line) = Some (PDict items) ->
  dict_get str_eqb (lit "session_id") items = None ->
  dict_get str_eqb (lit "codepoint") items = None ->
  dict_get str_eqb (lit "ip") items = None ->
  parse_log_file [line] =
  Returned [mkSessionData (PStr (lit "unknown")) (PStr []) [lit "U+"] [[]] 1].
Proof.
  intros Hne Ho Hsid Hcp Hip. unfold parse_log_file. cbn [read_lines].
  rewrite Ho. destruct (strip line) as [|c l]; [done|].
  unfold record_entry, entry_get. rewrite Hsid, Hcp, Hip.
  vm_compute. reflexivity.
Qed.

(** X23. The replay keeps codepoints as they are written, the collector
    uppercases them: two records of one session whose codepoints differ
    only in letter case are counted as two codepoints, with the same
    character listed twice, whereas the same two requests leave a single
    captured codepoint in the collector. *)
Theorem replay_counts_case_variants_twice
    (l1 l2 : pystr) items1 items2 (sid h1 h2 : pystr) cp :
  cp ∈ mapped_codepoints ->
  upper h1 = format_04X cp -> upper h2 = format_04X cp -> h1 <> h2 ->
  strip l1 <> [] -> strip l2 <> [] ->
  json_loads (strip l1) = Some (PDict items1) ->
  json_loads (strip l2) = Some (PDict items2) ->
  entry_get items1 "session_id" (PStr (lit "unknown")) = PStr sid ->
  entry_get items2 "session_id" (PStr (lit "unknown")) = PStr sid ->
  entry_get items1 "codepoint" (PStr []) = PStr h1 ->
  entry_get items2 "codepoint" (PStr []) = PStr h2 ->
  (exists ip cps,
      parse_log_file [l1; l2] =
        Returned [mkSessionData (PStr sid) ip [[cp]; [cp]] cps 2]
      /\ cps ≡ₚ [h1; h2])
  /\ forall rq1 rq2,
       Server.rq_session_id rq1 = sid -> Server.rq_session_id rq2 = sid ->
       Server.rq_codepoint rq1 = h1 -> Server.rq_codepoint rq2 = h2 ->
       Server.captured
         (Server.serve_all [rq1; rq2] Server.initial_state) sid
       = {[format_04X cp]}.
Proof.
  intros Hcp Hu1 Hu2 Hne Hs1 Hs2 Ho1 Ho2 Hsid1 Hsid2 Hc1 Hc2.
  assert (Hg1 : codepoint_to_char h1 = [cp]).
  { unfold codepoint_to_char. by rewrite Hu1, (CHAR_MAP_glyph _ Hcp). }
  assert (Hg2 : codepoint_to_char h2 = [cp]).
  { unfold codepoint_to_char. by rewrite Hu2, (CHAR_MAP_glyph _ Hcp). }
  split.
  - exists (entry_get items2 "ip" (PStr [])), (sorted [h1; h2]).
    split; [|apply sorted_Permutation].
    assert (Heq : str_eqb h2 h1 = false).
    { apply not_true_iff_false. intros Heq%str_eqb_eq. congruence. }
    assert (H1 : record_entry (PDict items1) [] =
                 Returned [(PStr sid,
                            mkLogSession [PStr h1]
                                         (entry_get items1 "ip" (PStr [])))]).
    { unfold record_entry. by rewrite Hsid1, Hc1. }
    assert (H2 : record_entry (PDict items2)
                   [(PStr sid,
                     mkLogSession [PStr h1] (entry_get items1 "ip" (PStr [])))]
                 = Returned [(PStr sid,
                              mkLogSession [PStr h1; PStr h2]
                                           (entry_get items2 "ip" (PStr [])))]).
    { unfold record_entry. rewrite Hsid2, Hc2. simpl.
      rewrite (proj2 (str_eqb_eq sid sid) eq_refl). simpl.
      unfold set_add. simpl. by rewrite Heq. }
    unfold parse_log_file. cbn [read_lines]. rewrite Ho1, Ho2.
    destruct (strip l1) as [|c1 r1]; [done|].
    destruct (strip l2) as [|c2 r2]; [done|].
    rewrite H1, H2. simpl. unfold sorted. simpl.
    destruct (str_ltb h2 h1); simpl; by rewrite Hg1, Hg2.
  - intros rq1 rq2 Hr1 Hr2 Hq1 Hq2.
    rewrite (captured_after_run [rq1; rq2] Server.initial_state sid).
    rewrite filter_cons_True, filter_cons_True, filter_nil by done.
    cbn [map]. rewrite Hq1, Hq2, Hu1, Hu2.
    assert (Hc0 : Server.captured Server.initial_state sid = ∅).
    { unfold Server.captured, Server.session_of. simpl.
      rewrite lookup_empty. apply dom_empty_L. }
    rewrite Hc0, !list_to_set_cons, list_to_set_nil.
    apply set_eq. intros x.
    rewrite !elem_of_union, !elem_of_singleton, elem_of_empty. tauto.
Qed.

End ReplayShape.

(** ** More closed instances *)

Section MoreInstances.
Import Server ServerApi Fonts Reconstruct Samples MoreSamples.
#[local] Existing Instance ascii_only_table.

Lemma run_leaves_other_sessions_alone_witness :
  sessions (serve_all [request_at "0046" 5; request_at "0049" 6] initial_state)
    !! lit "other" = sessions initial_state !! lit "other".
Proof.
  apply (run_leaves_other_sessions_alone
           [request_at "0046" 5; request_at "0049" 6] initial_state
           (lit "other")).
  intros rq Hin.
  repeat (apply elem_of_cons in Hin as [-> | Hin]; [by vm_compute|]).
  by apply elem_of_nil in Hin.
Defined.

Lemma api_log_negative_since_witness :
  let st := serve_all (map (request_at "0046") (seqZ 1 120)) initial_state in
  (api_log (-3) st).1 =
    drop (length (access_log st) - Z.to_nat (Z.min (- -3) 100)) (access_log st)
  /\ length (api_log (-3) st).1 =
     (length (access_log st) `min` Z.to_nat (Z.min (- -3) 100))%nat.
Proof.
  intros st. apply (api_log_negative_since (-3) st). lia.
Defined.

Lemma api_sessions_rows_witness :
  let data := session_of (serve_tracked_font (request_at "0046" 5)
                            initial_state) sid_abc in
  let r := session_row sid_abc data in
  exists sid data',
    (sid, data') ∈ [(sid_abc, data)] /\ codepoints data' <> ∅
    /\ r_session_id r = sid
    /\ StronglySorted str_le (r_codepoints r) /\ NoDup (r_codepoints r)
    /\ list_to_set (r_codepoints r) = dom (codepoints data')
    /\ r_characters r = map codepoint_to_char (r_codepoints r)
    /\ r_char_count r = size (codepoints data')
    /\ (1 <= r_char_count r)%nat
    /\ r_user_agent r = take 80 (user_agent data')
    /\ (length (r_inferred_words r) <= 15)%nat.
Proof.
  intros data r.
  apply (api_sessions_rows [(sid_abc, data)] [] r).
  vm_compute. left.
Defined.

Lemma api_sessions_reflects_store_witness :
  let st := serve_all [request_at "0046" 5; request_at "0049" 6]
                      initial_state in
  let resp := api_sessions (map_to_list (sessions st)) (access_log st) in
  rs_session_count resp = size (sessions st)
  /\ rs_total_requests resp = 2%nat
  /\ forall sid, sid ∈ dom (sessions st) ->
       exists r, r ∈ rs_sessions resp /\ r_session_id r = sid
                 /\ list_to_set (r_codepoints r) = captured st sid
                 /\ r_last_seen r = last_seen (session_of st sid).
Proof.
  intros st.
  apply (api_sessions_reflects_store
           [request_at "0046" 5; request_at "0049" 6]
           (map_to_list (sessions st))).
  reflexivity.
Defined.

Lemma style_sheet_urls_resolve_witness :
  src_line sid_abc (format_04X 97) ∈ session_css_rules sid_abc
  /\ e_codepoint (log_entry_of (request_at "0061" 1)) = format_04X 97
  /\ e_character (log_entry_of (request_at "0061" 1)) = [97]
  /\ forall st,
       format_04X 97 ∈ captured (serve_tracked_font (request_at "0061" 1) st)
                                sid_abc.
Proof.
  apply (style_sheet_urls_resolve sid_abc 97 [97] (request_at "0061" 1)).
  - solve_elem.
  - reflexivity.
  - reflexivity.
Defined.

Lemma codepoint_to_char_injective_witness :
  upper (lit "006a") = upper (lit "006A")
  /\ (CHAR_MAP !! upper (lit "006a") = None -> lit "006a" = lit "006A")
  /\ (length (codepoint_to_char (lit "006a")) = 1%nat <->
      is_Some (CHAR_MAP !! upper (lit "006a"))).
Proof.
  apply (codepoint_to_char_injective_up_to_case (lit "006a") (lit "006A")).
  vm_compute. reflexivity.
Defined.

Lemma analysis_ignores_order_witness :
  analyze_character_set [lit "a"; lit "B"] =
  analyze_character_set [lit "B"; lit "a"].
Proof.
  apply (analysis_ignores_order [lit "a"; lit "B"] [lit "B"; lit "a"]).
  apply Permutation_swap.
Defined.

Lemma ascii_character_in_exactly_one_list_witness :
  let a := analyze_character_set [lit "F"; lit "2"] in
  (([70] ∈ digits a) /\ ([70] ∉ uppercase a) /\ ([70] ∉ lowercase a)
   /\ ([70] ∉ special a))
  \/ (([70] ∉ digits a) /\ ([70] ∈ uppercase a) /\ ([70] ∉ lowercase a)
      /\ ([70] ∉ special a))
  \/ (([70] ∉ digits a) /\ ([70] ∉ uppercase a) /\ ([70] ∈ lowercase a)
      /\ ([70] ∉ special a))
  \/ (([70] ∉ digits a) /\ ([70] ∉ uppercase a) /\ ([70] ∉ lowercase a)
      /\ ([70] ∈ special a)).
Proof.
  apply (ascii_character_in_exactly_one_list [lit "F"; lit "2"] 70).
  - left.
  - reflexivity.
  - lia.
Defined.

Lemma parse_log_file_well_formed_witness :
  exists result,
    parse_log_file (J := two_line_decoder) [record_line] = Returned result
    /\ forall r, r ∈ result ->
         StronglySorted str_le (sd_codepoints r) /\ NoDup (sd_codepoints r)
         /\ sd_codepoints r <> []
         /\ sd_characters r = map codepoint_to_char (sd_codepoints r)
         /\ sd_char_count r = length (sd_codepoints r).
Proof.
  apply (parse_log_file_well_formed (J := two_line_decoder) [record_line]).
  - intros line o Hin%list_elem_of_singleton _ Ho. subst line.
    vm_compute in Ho. injection Ho as <-.
    split; [reflexivity | by eexists].
  - intros line Hin _ _. reflexivity.
Defined.

Lemma record_without_keys_witness :
  parse_log_file (J := three_line_decoder) [empty_object_line] =
  Returned [mkSessionData (PStr (lit "unknown")) (PStr []) [lit "U+"] [[]] 1].
Proof.
  apply (record_without_keys_uses_defaults (J := three_line_decoder)
           empty_object_line []).
  - by vm_compute.
  - reflexivity.
  - reflexivity.
  - reflexivity.
  - reflexivity.
Defined.

Lemma replay_counts_case_variants_witness :
  (exists ip cps,
      parse_log_file (J := three_line_decoder)
                     [lower_case_line; upper_case_line] =
        Returned [mkSessionData (PStr (lit "s1")) ip [[106]; [106]] cps 2]
      /\ cps ≡ₚ [lit "006a"; lit "006A"])
  /\ forall rq1 rq2,
       rq_session_id rq1 = lit "s1" -> rq_session_id rq2 = lit "s1" ->
       rq_codepoint rq1 = lit "006a" -> rq_codepoint rq2 = lit "006A" ->
       captured (serve_all [rq1; rq2] initial_state) (lit "s1")
       = {[format_04X 106]}.
Proof.
  apply (replay_counts_case_variants_twice (J := three_line_decoder)
           lower_case_line upper_case_line
           [(lit "session_id", PStr (lit "s1"));
            (lit "codepoint", PStr (lit "006a"))]
           [(lit "session_id", PStr (lit "s1"));
            (lit "codepoint", PStr (lit "006A"))]
           (lit "s1") (lit "006a") (lit "006A") 106).
  - solve_elem.
  - reflexivity.
  - reflexivity.
  - by vm_compute.
  - by vm_compute.
  - by vm_compute.
  - reflexivity.
  - reflexivity.
  - reflexivity.
  - reflexivity.
  - reflexivity.
  - reflexivity.
Defined.

End MoreInstances.
